(** * gen_packetIDs.go: the packet-ID generator of go-mc

    A shallow embedding of [data/gen_packetIDs.go] and the properties of its
    schema navigation, name resolution and file writer. *)

From stdpp Require Import gmap strings list fin_maps.
From Stdlib Require Import ZArith Lia Ascii.

Local Open Scope Z_scope.


(** ** Values decoded by encoding/json into [interface{}] *)

(** The 64 bits of an IEEE-754 double.  No code path of the generator looks
    inside a number, only at its dynamic type. *)
Definition float64 := Z.

(** [JNull] is Go's nil interface value: what JSON [null] decodes to, and
    also what indexing a map at an absent key yields. *)
#[warnings="-register-all"]
Inductive json :=
| JNull
| JBool (b : bool)
| JNumber (f : float64)
| JString (s : string)
| JArray (l : list json)
| JObject (m : gmap string json).

(** Go errors built by [fmt.Errorf] are carried as their message. *)
Definition error := string.

Module GoFmt.

Definition dquote : string := String "034"%char EmptyString.
Definition bslash : string := String "092"%char EmptyString.
Definition newline : string := String "010"%char EmptyString.

Definition hexdigit (n : N) : ascii :=
  (if n <? 10 then ascii_of_N (48 + n) else ascii_of_N (87 + n))%N.

(** One byte of [strconv.Quote].  Exact on ASCII.  Bytes from 0x80 up are
    copied, which is what [Quote] does only for the UTF-8 encoding of a
    printable rune: it escapes the other runes and invalid UTF-8, so keys with
    such bytes are outside what this definition models ([ascii_only] below
    marks the strings on which it is exact). *)
Definition quote_byte (c : ascii) : string :=
  let n := N_of_ascii c in
  if (n =? 34)%N then bslash +:+ dquote
  else if (n =? 92)%N then bslash +:+ bslash
  else if (n =? 7)%N then bslash +:+ "a"
  else if (n =? 8)%N then bslash +:+ "b"
  else if (n =? 12)%N then bslash +:+ "f"
  else if (n =? 10)%N then bslash +:+ "n"
  else if (n =? 13)%N then bslash +:+ "r"
  else if (n =? 9)%N then bslash +:+ "t"
  else if (n =? 11)%N then bslash +:+ "v"
  else if ((n <? 32) || (n =? 127))%N then
    bslash +:+ "x" +:+ String (hexdigit (n / 16)) (String (hexdigit (n mod 16)) EmptyString)
  else String c EmptyString.

Fixpoint quote_body (s : string) : string :=
  match s with
  | EmptyString => EmptyString
  | String c s' => quote_byte c +:+ quote_body s'
  end.

(** The verb [%q] applied to a string. *)
Definition verb_q (s : string) : string := dquote +:+ quote_body s +:+ dquote.

(** The verb [%T] applied to a decoded value. *)
Definition verb_T (v : json) : string :=
  match v with
  | JNull => "<nil>"
  | JBool _ => "bool"
  | JNumber _ => "float64"
  | JString _ => "string"
  | JArray _ => "[]interface {}"
  | JObject _ => "map[string]interface {}"
  end.

End GoFmt.

(** Every byte of the string is below 0x80. *)
Fixpoint ascii_only (s : string) : bool :=
  match s with
  | EmptyString => true
  | String c s' => (N_of_ascii c <? 128)%N && ascii_only s'
  end.

(** [unnest]: the loop over [keys] with [input] reassigned at each round. *)
Fixpoint unnest (input : gmap string json) (keys : list string)
  : gmap string json + error :=
  match keys with
  | [] => inl input
  | k :: keys' =>
      match input !! k with
      | None => inr ("key " +:+ GoFmt.verb_q k +:+ " not found")
      | Some sub =>
          match sub with
          | JObject next => unnest next keys'
          | _ => inr ("key " +:+ GoFmt.verb_q k +:+ " was " +:+ GoFmt.verb_T sub
                        +:+ ", expected a string map")
          end
      end
  end.

(** ** Effects: the runtime's map-iteration randomness, panics, [os.Exit],
       the standard error stream and the generated file *)

(** One write call on the output file. *)
Inductive chunk :=
| Println (s : string)        (* fmt.Fprintln(f, s); fmt.Fprintln(f) is [Println ""] *)
| Decl (k pad v : string).    (* fmt.Fprintf(f, "  %s%s PktID = %s\n", k, pad, v) *)

(** The bytes a write call puts in the file. *)
Definition bytes (c : chunk) : string :=
  match c with
  | Println s => s +:+ GoFmt.newline
  | Decl k pad v => "  " +:+ k +:+ pad +:+ " PktID = " +:+ v +:+ GoFmt.newline
  end.

Record World := mkWorld {
  rand : nat;                       (* draws taken so far from the runtime's random source *)
  stderr : list string;             (* what was printed on os.Stderr, oldest first *)
  file : option (list chunk)        (* packetIDs.go: [None] until os.Create, then the writes *)
}.

Inductive outcome (A : Type) :=
| Done (a : A)
| Panicked
| Exited (code : Z).
Arguments Done {A} a.
Arguments Panicked {A}.
Arguments Exited {A} code.

Definition M (A : Type) : Type := World → outcome A * World.

Definition ret {A} (a : A) : M A := λ w, (Done a, w).

Definition bind {A B} (c : M A) (k : A → M B) : M B :=
  λ w, match c w with
       | (Done a, w') => k a w'
       | (Panicked, w') => (Panicked, w')
       | (Exited n, w') => (Exited n, w')
       end.

Declare Scope go_scope.
Delimit Scope go_scope with go.
Notation "x <- c ; k" := (bind c (λ x, k))
  (at level 100, c at next level, k at level 200, right associativity) : go_scope.
Notation "c ;; k" := (bind c (λ _, k))
  (at level 100, k at level 200, right associativity) : go_scope.
Local Open Scope go_scope.

Definition panic {A} : M A := λ w, (Panicked, w).
Definition Exit {A} (code : Z) : M A := λ w, (Exited code, w).

(** A loop over a slice whose body may panic. *)
Fixpoint foldM {A B} (body : B → A → M B) (l : list A) (b : B) : M B :=
  match l with
  | [] => ret b
  | a :: l' => b' <- body b a; foldM body l' b'
  end.

Definition eprint (s : string) : M () :=
  λ w, (Done (), mkWorld (rand w) (stderr w ++ [s]) (file w)).

(** [os.Create] (when it succeeds) truncates the file. *)
Definition Create : M () :=
  λ w, (Done (), mkWorld (rand w) (stderr w) (Some [])).

(** Write errors are ignored by the source; a write before [Create] cannot
    happen in [main] and is modelled as lost. *)
Definition write (c : chunk) : M () :=
  λ w, (Done (), mkWorld (rand w) (stderr w) ((λ f, f ++ [c]) <$> file w)).

(** Dynamic checks of the unchecked forms [v.(T)] and [l[i]]. *)
Definition assertArray (v : json) : M (list json) :=
  match v with JArray l => ret l | _ => panic end.
Definition assertObject (v : json) : M (gmap string json) :=
  match v with JObject m => ret m | _ => panic end.
Definition assertString (v : json) : M string :=
  match v with JString s => ret s | _ => panic end.
Definition index (l : list json) (i : nat) : M json :=
  match l !! i with Some v => ret v | None => panic end.
(** [m[k]] read as a single value: nil when the key is absent. *)
Definition get (m : gmap string json) (k : string) : json := default JNull (m !! k).

(** [len(s)]: the byte length, an [int].  Lengths lie in [0, 2^63), so the
    comparisons and the one subtraction made on them cannot wrap. *)
Definition len (s : string) : Z := Z.of_nat (String.length s).

Fixpoint repeat_string (s : string) (n : nat) : string :=
  match n with O => EmptyString | S n' => s +:+ repeat_string s n' end.

(** [strings.Repeat] panics on a negative count (and on overflow of
    [len(s) * count], which a one-byte [s] and a count below 2^63 cannot
    cause). *)
Definition Repeat (s : string) (count : Z) : M string :=
  if count <? 0 then panic else ret (repeat_string s (Z.to_nat count)).

Record duplexMappings := mkDuplex {
  Clientbound : gmap string string;
  Serverbound : gmap string string
}.

Record protocolIDs := mkProtocolIDs {
  Login : duplexMappings;
  Play : duplexMappings;
  Status : duplexMappings
}.

(** What [http.Get] followed by [json.Decode] into a [map[string]interface{}]
    hands to the rest of [downloadInfo]. *)
Inductive response :=
| GetFailed (err : error)
| DecodeFailed (err : error)
| Decoded (data : gmap string json).

Record Env := mkEnv {
  fetched : response;               (* the outcome of the download *)
  create_err : option error         (* [Some] when os.Create("packetIDs.go") fails *)
}.

Section Generator.

(** [strcase.ToCamel], from an imported package. *)
Variable ToCamel : string → string.

(** The order in which the [n]-th [range] over a map of this run visits the
    entries: Go leaves it unspecified and randomises it. *)
Variable shuffle : nat → ∀ A : Type, list A → list A.

Definition range {V} (m : gmap string V) : M (list (string * V)) :=
  λ w, (Done (shuffle (rand w) _ (map_to_list m)),
        mkWorld (S (rand w)) (stderr w) (file w)).

(** The body of the second loop of [EnsureUniqueNames]. *)
Definition disambiguate (m : duplexMappings) (k : string) : duplexMappings :=
  match Serverbound m !! k with
  | Some _ =>
      let cVal := default "" (Clientbound m !! k) in
      let sVal := default "" (Serverbound m !! k) in
      let c := delete k (Clientbound m) in
      let s := delete k (Serverbound m) in
      mkDuplex (<[k +:+ "Clientbound" := cVal]> c) (<[k +:+ "Serverbound" := sVal]> s)
  | None => m
  end.

Definition EnsureUniqueNames (m : duplexMappings) : M duplexMappings :=
  entries <- range (Clientbound m);
  let clientKeys := foldl (λ keys e, keys ++ [e.1]) [] entries in
  ret (foldl disambiguate m clientKeys).

(** Lines 74-75 and 83-84: from the "types" object to the "mappings" object. *)
Definition packetMappings (info : gmap string json) : M (gmap string json) :=
  l <- assertArray (get info "packet");
  e1 <- index l 1;
  l1 <- assertArray e1;
  e0 <- index l1 0;
  o <- assertObject e0;
  let pType := get o "type" in
  t <- assertArray pType;
  t1 <- index t 1;
  o1 <- assertObject t1;
  assertObject (get o1 "mappings").

(** The body of [for k, v := range mappings { out[ToCamel(v.(string))] = k }]. *)
Definition record (out : gmap string string) (e : string * json) : M (gmap string string) :=
  name <- assertString e.2;
  ret (<[ToCamel name := e.1]> out).

Definition unpackMapping (data : gmap string json) (gameState : string)
  : M (duplexMappings + error) :=
  let out := mkDuplex ∅ ∅ in
  match unnest data [gameState; "toClient"; "types"] with
  | inr err => ret (inr err)
  | inl info =>
      mappings <- packetMappings info;
      entries <- range mappings;
      c <- foldM record entries (Clientbound out);
      let out := mkDuplex c (Serverbound out) in
      match unnest data [gameState; "toServer"; "types"] with
      | inr err => ret (inr err)
      | inl info =>
          mappings <- packetMappings info;
          entries <- range mappings;
          s <- foldM record entries (Serverbound out);
          ret (inl (mkDuplex (Clientbound out) s))
      end
  end.

Definition longer (max : Z) (e : string * string) : Z :=
  if len e.1 >? max then len e.1 else max.

Definition MaxLen (p : protocolIDs) : M Z :=
  foldM (λ max m,
           cs <- range (Clientbound m);
           let max := foldl longer max cs in
           ss <- range (Serverbound m);
           ret (foldl longer max ss))
        [Login p; Play p; Status p] 0.

Definition downloadInfo (env : Env) : M (protocolIDs + error) :=
  match fetched env with
  | GetFailed err => ret (inr err)
  | DecodeFailed err => ret (inr err)
  | Decoded data =>
      r <- unpackMapping data "login";
      match r with
      | inr err => ret (inr ("login: " +:+ err))
      | inl login =>
          login <- EnsureUniqueNames login;
          r <- unpackMapping data "play";
          match r with
          | inr err => ret (inr ("play: " +:+ err))
          | inl play =>
              play <- EnsureUniqueNames play;
              r <- unpackMapping data "status";
              match r with
              | inr err => ret (inr ("play: " +:+ err))
              | inl status =>
                  status <- EnsureUniqueNames status;
                  ret (inl (mkProtocolIDs login play status))
              end
          end
      end
  end.

(** One of the six emission loops of [main], which differ only in the map:
    [for k, v := range m { Fprintf(f, ..., k, Repeat(" ", maxLen-len(k)), v) }]. *)
Definition declare (maxLen : Z) (m : gmap string string) : M () :=
  entries <- range m;
  foldM (λ _ e, pad <- Repeat " " (maxLen - len e.1); write (Decl e.1 pad e.2))
        entries ().

Definition main (env : Env) : M () :=
  r <- downloadInfo env;
  match r with
  | inr err => eprint ("Error: " +:+ err +:+ GoFmt.newline);; Exit 1
  | inl pIDs =>
      maxLen <- MaxLen pIDs;
      match create_err env with
      | Some err => eprint ("Error: " +:+ err +:+ GoFmt.newline);; Exit 1
      | None =>
          Create;;
          write (Println "// This file is automatically generated by gen_packetIDs.go. DO NOT EDIT.");;
          write (Println "");;
          write (Println "package data");;
          write (Println "");;
          write (Println "//go:generate go run gen_packetIDs.go");;
          write (Println "");;
          write (Println "// PktID represents a packet ID used in the minecraft protocol.");;
          write (Println "type PktID int32");;
          write (Println "");;
          write (Println "// Valid PktID values.");;
          write (Println "const (");;
          write (Println "  // Clientbound packets for connections in the login state.");;
          declare maxLen (Clientbound (Login pIDs));;
          write (Println "  // Serverbound packets for connections in the login state.");;
          declare maxLen (Serverbound (Login pIDs));;
          write (Println "");;
          write (Println "  // Clientbound packets for connections in the play state.");;
          declare maxLen (Clientbound (Play pIDs));;
          write (Println "  // Serverbound packets for connections in the play state.");;
          declare maxLen (Serverbound (Play pIDs));;
          write (Println "");;
          write (Println "  // Clientbound packets used to respond to ping/status requests.");;
          declare maxLen (Clientbound (Status pIDs));;
          write (Println "  // Serverbound packets used to ping or read server status.");;
          declare maxLen (Serverbound (Status pIDs));;
          write (Println "");;
          write (Println ")")
      end
  end.

End Generator.

(** ** Concrete instances used to run the generator *)

Module Run.

Definition is_separator (c : ascii) : bool :=
  let n := N_of_ascii c in
  ((n =? 95) || (n =? 32) || (n =? 45) || (n =? 46))%N.

Definition upper (c : ascii) : ascii :=
  let n := N_of_ascii c in
  if ((97 <=? n) && (n <=? 122))%N then ascii_of_N (n - 32) else c.

Fixpoint camel (capNext : bool) (s : string) : string :=
  match s with
  | EmptyString => EmptyString
  | String c s' =>
      if is_separator c then camel true s'
      else String (if capNext then upper c else c) (camel false s')
  end.

(** Modelled from the spec: [strcase.ToCamel] belongs to the imported package
    github.com/iancoleman/strcase, whose source is not part of the
    repository.  The spec describes its result as "capitalized, no
    separators" ("spawn_entity" becomes "SpawnEntity"): separators are
    dropped and the first letter of every word is put in upper case. *)
Definition ToCamel (s : string) : string := camel true s.

(** The iteration order that visits a map as [map_to_list] lists it, and the
    opposite one. *)
Definition in_order : nat → ∀ A : Type, list A → list A := λ _ _ l, l.
Definition reversed : nat → ∀ A : Type, list A → list A := λ _ _ l, rev l.

Definition w0 : World := mkWorld 0 [] None.

(** The shape of one direction of one phase in protocol.json, around its
    id-to-name [mappings]. *)
Definition direction_doc (mappings : gmap string json) : json :=
  JObject {[ "types" := JObject {[ "packet" :=
    JArray [ JString "container";
             JArray [ JObject {[ "name" := JString "name";
                                 "type" := JArray [ JString "mapper";
                                                    JObject {[ "type" := JString "varint";
                                                               "mappings" := JObject mappings ]} ] ]};
                      JObject {[ "name" := JString "params" ]} ] ] ]} ]}.

Definition phase_doc (toClient toServer : gmap string json) : json :=
  JObject {[ "toClient" := direction_doc toClient; "toServer" := direction_doc toServer ]}.

Definition names (l : list (string * string)) : gmap string json :=
  list_to_map (prod_map id JString <$> l).

End Run.

(** ** Notions used to state the properties *)

(** *** Navigation *)

Definition is_object (v : json) : Prop :=
  match v with JObject _ => True | _ => False end.

(** Walking [keys] through nested string-keyed maps from the first map ends in
    the last one. *)
Inductive reaches : gmap string json → list string → gmap string json → Prop :=
| reaches_nil m : reaches m [] m
| reaches_cons m k next keys m' :
    m !! k = Some (JObject next) → reaches next keys m' → reaches m (k :: keys) m'.

(** The walk cannot go through [k]: the key is absent from the current map, or
    its value is not a nested string-keyed map. *)
Definition blocked (cur : gmap string json) (k : string) : Prop :=
  cur !! k = None ∨ ∃ v, cur !! k = Some v ∧ ¬ is_object v.

Definition stops (input : gmap string json) (keys : list string) : Prop :=
  ∃ pre k post cur, keys = pre ++ k :: post ∧ reaches input pre cur ∧ blocked cur k.

(** The message [unnest] builds when the walk is blocked at [k] in [cur]. *)
Definition names_key (e : error) (cur : gmap string json) (k : string) : Prop :=
  (cur !! k = None ∧ e = "key " +:+ GoFmt.verb_q k +:+ " not found")
  ∨ (∃ v, cur !! k = Some v ∧ ¬ is_object v
          ∧ e = "key " +:+ GoFmt.verb_q k +:+ " was " +:+ GoFmt.verb_T v
                +:+ ", expected a string map").

Definition is_string (v : json) : bool :=
  match v with JString _ => true | _ => false end.

Definition text (v : json) : string :=
  match v with JString s => s | _ => "" end.

(** The shape the navigation expects below the "types" object:
    "packet" -> list, element 1 -> list, element 0 -> object, "type" -> list,
    element 1 -> object, "mappings" -> object. *)
Definition leafOf (info : gmap string json) : option (gmap string json) :=
  match info !! "packet" with
  | Some (JArray l) =>
      match l !! 1%nat with
      | Some (JArray l1) =>
          match l1 !! 0%nat with
          | Some (JObject o) =>
              match o !! "type" with
              | Some (JArray t) =>
                  match t !! 1%nat with
                  | Some (JObject o1) =>
                      match o1 !! "mappings" with
                      | Some (JObject mappings) => Some mappings
                      | _ => None
                      end
                  | _ => None
                  end
              | _ => None
              end
          | _ => None
          end
      | _ => None
      end
  | _ => None
  end.

(** How the navigation of one direction of one phase ends: stopped at one of
    the object steps phase, direction, "types" (with the message of [unnest]);
    stopped at a later step, or at a declared name that is not text; or
    arrived at the id-to-name mappings. *)
Inductive navigation :=
| NavError (e : error)
| NavMismatch
| NavFound (mappings : gmap string json).

Definition navigate (data : gmap string json) (gameState dir : string) : navigation :=
  match unnest data [gameState; dir; "types"] with
  | inr e => NavError e
  | inl info =>
      match leafOf info with
      | Some mappings =>
          if forallb (λ e, is_string e.2) (map_to_list mappings)
          then NavFound mappings else NavMismatch
      | None => NavMismatch
      end
  end.

(** What one round of the loop of [unpackMapping] does with a name that is
    text. *)
Definition recorded (ToCamel : string → string)
    (out : gmap string string) (e : string * json) : gmap string string :=
  <[ToCamel (text e.2) := e.1]> out.

(** The world after [n] more [range] statements over maps. *)
Definition advance (n : nat) (w : World) : World :=
  mkWorld (n + rand w) (stderr w) (file w).

(** The outcome of [unpackMapping], read off the two navigations; [r] counts
    the [range] statements run before the call. *)
Definition unpacked (ToCamel : string → string) (shuffle : nat → ∀ A : Type, list A → list A)
    (data : gmap string json) (gameState : string) (r : nat)
  : outcome (duplexMappings + error) :=
  match navigate data gameState "toClient" with
  | NavError e => Done (inr e)
  | NavMismatch => Panicked
  | NavFound toClient =>
      match navigate data gameState "toServer" with
      | NavError e => Done (inr e)
      | NavMismatch => Panicked
      | NavFound toServer =>
          Done (inl (mkDuplex
            (foldl (recorded ToCamel) ∅ (shuffle r _ (map_to_list toClient)))
            (foldl (recorded ToCamel) ∅ (shuffle (S r) _ (map_to_list toServer)))))
      end
  end.

(** The normalised names the schema declares for one direction of a phase. *)
Definition normalized (ToCamel : string → string)
    (data : gmap string json) (gs dir : string) : gset string :=
  match navigate data gs dir with
  | NavFound mappings => list_to_set ((λ e, ToCamel (text e.2)) <$> map_to_list mappings)
  | _ => ∅
  end.

(** No name declared in both directions of the phase has its "Clientbound"
    form among the serverbound names or its "Serverbound" form among the
    clientbound names. *)
Definition clash_free (ToCamel : string → string)
    (data : gmap string json) (gs : string) : Prop :=
  ∀ k, k ∈ normalized ToCamel data gs "toClient" →
       k ∈ normalized ToCamel data gs "toServer" →
       ((k +:+ "Clientbound") ∉ normalized ToCamel data gs "toServer")
       ∧ ((k +:+ "Serverbound") ∉ normalized ToCamel data gs "toClient").

(** The ids, as text, that the schema lists for one direction of a phase: the
    keys of its "mappings" object. *)
Definition schema_ids (data : gmap string json) (gs dir : string) : gset string :=
  match navigate data gs dir with
  | NavFound mappings => dom mappings
  | _ => ∅
  end.

(** Every id held by [m] is one of the ids the schema lists for that phase
    and direction. *)
Definition ids_from_schema (data : gmap string json) (gs : string) (m : duplexMappings)
  : Prop :=
  (∀ k v, Clientbound m !! k = Some v → v ∈ schema_ids data gs "toClient")
  ∧ (∀ k v, Serverbound m !! k = Some v → v ∈ schema_ids data gs "toServer").

(** How [unpackMapping] ends for a phase, read off its two navigations:
    toClient is navigated first, and toServer only when toClient arrived. *)
Inductive phase_outcome :=
| PhaseError (e : error)
| PhasePanic
| PhaseFound.

Definition unpack_outcome (data : gmap string json) (gs : string) : phase_outcome :=
  match navigate data gs "toClient" with
  | NavError e => PhaseError e
  | NavMismatch => PhasePanic
  | NavFound _ =>
      match navigate data gs "toServer" with
      | NavError e => PhaseError e
      | NavMismatch => PhasePanic
      | NavFound _ => PhaseFound
      end
  end.

(** Within one schema mapping no two ids declare names with the same
    normalised form. *)
Definition distinct_names (ToCamel : string → string) (mappings : gmap string json)
  : Prop :=
  ∀ id1 name1 id2 name2,
    mappings !! id1 = Some (JString name1) → mappings !! id2 = Some (JString name2) →
    ToCamel name1 = ToCamel name2 → id1 = id2.

(** *** Collision resolution *)

(** The names that are keys of both directional mappings. *)
Definition shared (m : duplexMappings) : gset string :=
  dom (Clientbound m) ∩ dom (Serverbound m).

(** No shared name has its suffixed form already taken on the other side. *)
Definition no_suffix_clash (m : duplexMappings) : Prop :=
  ∀ k, k ∈ shared m →
    ((k +:+ "Clientbound") ∉ dom (Serverbound m))
    ∧ ((k +:+ "Serverbound") ∉ dom (Clientbound m)).

(** What the second loop of [EnsureUniqueNames] needs of the keys still to be
    visited, given the serverbound mapping as it stands. *)
Definition safe (s : gmap string string) (l : list string) : Prop :=
  NoDup l ∧
  ∀ k, k ∈ l → is_Some (s !! k) →
    s !! (k +:+ "Clientbound") = None ∧ ((k +:+ "Serverbound") ∉ l).

(** What the claim on collision resolution promises of the mappings [m']
    obtained from [m]. *)
Definition resolved (m m' : duplexMappings) : Prop :=
  shared m' = ∅ ∧
  ∀ k, k ∈ shared m →
    Clientbound m' !! (k +:+ "Clientbound") = Clientbound m !! k
    ∧ Serverbound m' !! (k +:+ "Serverbound") = Serverbound m !! k.

(** [m] comes from [raw] by the second loop of [EnsureUniqueNames], run over
    the clientbound names in some order. *)
Definition resolution (raw m : duplexMappings) : Prop :=
  ∃ l, l ≡ₚ (map_to_list (Clientbound raw)).*1 ∧ m = foldl disambiguate raw l.

(** *** The layout of the generated file *)

(** The six (phase, direction) groups, in the order [main] writes them. *)
Inductive group :=
| LoginClientbound | LoginServerbound
| PlayClientbound | PlayServerbound
| StatusClientbound | StatusServerbound.

Definition groups : list group :=
  [LoginClientbound; LoginServerbound; PlayClientbound; PlayServerbound;
   StatusClientbound; StatusServerbound].

Definition position (g : group) : nat :=
  match g with
  | LoginClientbound => 0 | LoginServerbound => 1
  | PlayClientbound => 2 | PlayServerbound => 3
  | StatusClientbound => 4 | StatusServerbound => 5
  end.

Definition mapping (p : protocolIDs) (g : group) : gmap string string :=
  match g with
  | LoginClientbound => Clientbound (Login p)
  | LoginServerbound => Serverbound (Login p)
  | PlayClientbound => Clientbound (Play p)
  | PlayServerbound => Serverbound (Play p)
  | StatusClientbound => Clientbound (Status p)
  | StatusServerbound => Serverbound (Status p)
  end.

Definition comment (g : group) : string :=
  match g with
  | LoginClientbound => "  // Clientbound packets for connections in the login state."
  | LoginServerbound => "  // Serverbound packets for connections in the login state."
  | PlayClientbound => "  // Clientbound packets for connections in the play state."
  | PlayServerbound => "  // Serverbound packets for connections in the play state."
  | StatusClientbound => "  // Clientbound packets used to respond to ping/status requests."
  | StatusServerbound => "  // Serverbound packets used to ping or read server status."
  end.

Definition header : list chunk :=
  [ Println "// This file is automatically generated by gen_packetIDs.go. DO NOT EDIT.";
    Println "";
    Println "package data";
    Println "";
    Println "//go:generate go run gen_packetIDs.go";
    Println "";
    Println "// PktID represents a packet ID used in the minecraft protocol.";
    Println "type PktID int32";
    Println "";
    Println "// Valid PktID values.";
    Println "const (" ].

(** A declaration line: the name, spaces up to [maxLen] columns, the type and
    the id as the schema spells it. *)
Definition declaration (maxLen : Z) (e : string * string) : chunk :=
  Decl e.1 (repeat_string " " (Z.to_nat (maxLen - len e.1))) e.2.

Definition block (maxLen : Z) (order : group → list (string * string)) (g : group)
  : list chunk :=
  Println (comment g) :: (declaration maxLen <$> order g).

(** The whole file, given the order in which each group's entries come out. *)
Definition layout (maxLen : Z) (order : group → list (string * string)) : list chunk :=
  header
  ++ block maxLen order LoginClientbound ++ block maxLen order LoginServerbound
  ++ [Println ""]
  ++ block maxLen order PlayClientbound ++ block maxLen order PlayServerbound
  ++ [Println ""]
  ++ block maxLen order StatusClientbound ++ block maxLen order StatusServerbound
  ++ [Println ""]
  ++ [Println ")"].

(** The (name, id) pairs of the declaration lines of a file, in file order. *)
Definition declared (f : list chunk) : list (string * string) :=
  omap (λ c, match c with Decl k _ v => Some (k, v) | Println _ => None end) f.

(** The declaration lines at the start of a list of writes. *)
Fixpoint leading (f : list chunk) : list chunk :=
  match f with
  | Decl k pad v :: f' => Decl k pad v :: leading f'
  | _ => []
  end.

(** The declaration lines that directly follow the first line [Println c]. *)
Fixpoint following (c : string) (f : list chunk) : list chunk :=
  match f with
  | [] => []
  | Println s :: f' => if decide (s = c) then leading f' else following c f'
  | Decl _ _ _ :: f' => following c f'
  end.

(** The names of the declaration lines under the comment of a group. *)
Definition names_under (g : group) (f : list chunk) : list string :=
  (declared (following (comment g) f)).*1.

(** [n] is the length of the longest name of the six mappings (0 when there
    is no name at all). *)
Definition longest (n : Z) (p : protocolIDs) : Prop :=
  (∀ g k, k ∈ dom (mapping p g) → len k ≤ n)
  ∧ ((∃ g k, k ∈ dom (mapping p g) ∧ len k = n)
     ∨ ((∀ g, mapping p g = ∅) ∧ n = 0)).

(** The order in which the [range] statement number [r + position g] of the
    run visits the entries of group [g]. *)
Definition visited (shuffle : nat → ∀ A : Type, list A → list A)
    (r : nat) (p : protocolIDs) (g : group) : list (string * string) :=
  shuffle (position g + r)%nat _ (map_to_list (mapping p g)).

(** *** Phases *)

Inductive phase := LoginPhase | PlayPhase | StatusPhase.

(** The key of a phase in the schema, as [downloadInfo] passes it. *)
Definition gameState (ph : phase) : string :=
  match ph with LoginPhase => "login" | PlayPhase => "play" | StatusPhase => "status" end.

Definition of_phase (p : protocolIDs) (ph : phase) : duplexMappings :=
  match ph with LoginPhase => Login p | PlayPhase => Play p | StatusPhase => Status p end.

Definition toClient_group (ph : phase) : group :=
  match ph with
  | LoginPhase => LoginClientbound | PlayPhase => PlayClientbound
  | StatusPhase => StatusClientbound
  end.

Definition toServer_group (ph : phase) : group :=
  match ph with
  | LoginPhase => LoginServerbound | PlayPhase => PlayServerbound
  | StatusPhase => StatusServerbound
  end.

(** ** Inputs on which the generator is run *)

Module Inputs.

(** The scenario of the spec: "chat" is sent in both directions. *)
Definition chat : duplexMappings :=
  mkDuplex {[ "SpawnEntity" := "5"; "Chat" := "6" ]} {[ "Chat" := "3"; "UseItem" := "7" ]}.

(** A shared name whose clientbound form is already a serverbound name. *)
Definition clash : duplexMappings :=
  mkDuplex {[ "A" := "1" ]} {[ "A" := "2"; "AClientbound" := "3" ]}.

(** What [EnsureUniqueNames] makes of it. *)
Definition clash_resolved : duplexMappings :=
  mkDuplex {[ "AClientbound" := "1" ]} {[ "AClientbound" := "3"; "AServerbound" := "2" ]}.

(** Two mappings without a common name. *)
Definition apart : duplexMappings :=
  mkDuplex {[ "Disconnect" := "0"; "Success" := "2" ]} {[ "LoginStart" := "0" ]}.

(** The play phase of [Sample.doc] below, as [unpackMapping] returns it. *)
Definition chat_raw : duplexMappings :=
  mkDuplex {[ "SpawnEntity" := "0x05"; "Chat" := "0x06" ]}
           {[ "Chat" := "0x03"; "UseItem" := "0x07" ]}.

End Inputs.

Module Documents.

(** The "types" object of login/toClient has no "packet" entry. *)
Definition no_packet : gmap string json :=
  {[ "login" := JObject {[ "toClient" := JObject {[ "types" := JObject ∅ ]} ]} ]}.

(** Two raw names of play/toClient that differ only in the case of the first
    letter. *)
Definition two_chats : gmap string json :=
  {[ "play" := Run.phase_doc (Run.names [("0x0e", "chat"); ("0x0f", "Chat")]) ∅ ]}.

End Documents.

Module Sample.

(** A small schema of the expected shape: "encryption_begin" and "chat" are
    sent both ways, and status/toClient has no packet. *)
Definition doc : gmap string json :=
  {[ "login" := Run.phase_doc (Run.names [("0x00", "disconnect"); ("0x01", "encryption_begin")])
                          (Run.names [("0x00", "login_start"); ("0x01", "encryption_begin")]);
     "play" := Run.phase_doc (Run.names [("0x05", "spawn_entity"); ("0x06", "chat")])
                         (Run.names [("0x03", "chat"); ("0x07", "use_item")]);
     "status" := Run.phase_doc ∅ (Run.names [("0x01", "ping")]) ]}.

Definition env : Env := mkEnv (Decoded doc) None.

(** What [downloadInfo] returns on it. *)
Definition ids : protocolIDs :=
  mkProtocolIDs
    (mkDuplex {[ "Disconnect" := "0x00"; "EncryptionBeginClientbound" := "0x01" ]}
              {[ "LoginStart" := "0x00"; "EncryptionBeginServerbound" := "0x01" ]})
    (mkDuplex {[ "SpawnEntity" := "0x05"; "ChatClientbound" := "0x06" ]}
              {[ "ChatServerbound" := "0x03"; "UseItem" := "0x07" ]})
    (mkDuplex ∅ {[ "Ping" := "0x01" ]}).

Definition downloaded : World := mkWorld 9 [] None.

End Sample.

Module Collisions.

(** "disconnect" is declared by login/toClient and by play/toClient. *)
Definition doc : gmap string json :=
  {[ "login" := Run.phase_doc (Run.names [("0x00", "disconnect")]) ∅;
     "play" := Run.phase_doc (Run.names [("0x19", "disconnect")]) ∅;
     "status" := Run.phase_doc ∅ ∅ ]}.

Definition env : Env := mkEnv (Decoded doc) None.

End Collisions.

Module Repeats.

(** login/toClient and play/toClient both declare "disconnect" under the id
    0x00. *)
Definition doc : gmap string json :=
  {[ "login" := Run.phase_doc (Run.names [("0x00", "disconnect")]) ∅;
     "play" := Run.phase_doc (Run.names [("0x00", "disconnect")]) ∅;
     "status" := Run.phase_doc ∅ ∅ ]}.

Definition env : Env := mkEnv (Decoded doc) None.

End Repeats.

Module Broken.

(** Login and play navigate; the status phase has no "toClient". *)
Definition doc : gmap string json :=
  {[ "login" := Run.phase_doc (Run.names [("0x00", "disconnect")])
                          (Run.names [("0x00", "login_start")]);
     "play" := Run.phase_doc (Run.names [("0x0e", "chat")]) (Run.names [("0x03", "chat")]);
     "status" := JObject {[ "toServer" := Run.direction_doc (Run.names [("0x01", "ping")]) ]} ]}.

Definition env : Env := mkEnv (Decoded doc) None.

End Broken.

(** * Properties *)

Example unnest_demo :
  unnest {[ "a" := JObject {[ "b" := JNumber 0 ]} ]} ["a"; "b"]
  = inr ("key " +:+ GoFmt.dquote +:+ "b" +:+ GoFmt.dquote
           +:+ " was float64, expected a string map").
Proof. vm_compute. reflexivity. Qed.

(** ** [unnest] *)

Lemma reaches_functional input keys m1 m2 :
  reaches input keys m1 → reaches input keys m2 → m1 = m2.
Proof.
  induction 1 as [|m k next keys m' Hk _ IH]; inversion 1; subst; [done|].
  apply IH. congruence.
Qed.

Lemma unnest_inl input keys m : unnest input keys = inl m ↔ reaches input keys m.
Proof.
  revert input. induction keys as [|k keys IH]; intros input; simpl.
  - split; [intros [= <-]; constructor | by inversion 1].
  - split.
    + destruct (input !! k) as [[| | | | |next]|] eqn:Hk; try discriminate.
      intros Hrec. econstructor; [done|]. by apply IH.
    + inversion 1 as [|? ? next ? ? Hk Hrec]; subst. rewrite Hk. by apply IH.
Qed.

Lemma unnest_inr input keys e :
  unnest input keys = inr e →
  ∃ pre k post cur,
    keys = pre ++ k :: post ∧ reaches input pre cur ∧ names_key e cur k.
Proof.
  revert input. induction keys as [|k keys IH]; intros input; simpl; [done|].
  destruct (input !! k) as [sub|] eqn:Hk.
  - destruct sub as [| | | | |next];
      try (intros [= <-]; exists [], k, keys, input;
           split; [done|]; split; [constructor|];
           right; eexists; split; [done|]; split; [by intros []|done]).
    intros (pre & k' & post & cur & -> & Hreach & Hname)%IH.
    exists (k :: pre), k', post, cur. split; [done|]. split; [|done].
    by econstructor.
  - intros [= <-]. exists [], k, keys, input.
    split; [done|]. split; [constructor|]. by left.
Qed.

Lemma names_key_blocked e cur k : names_key e cur k → blocked cur k.
Proof. intros [[? _]|(v & ? & ? & _)]; [by left|right; eauto]. Qed.

Lemma stops_not_reaches input keys m : stops input keys → ¬ reaches input keys m.
Proof.
  intros (pre & k & post & cur & -> & Hpre & Hblk). revert input Hpre.
  induction pre as [|p pre IH]; intros input Hpre; simpl.
  - inversion Hpre; subst. inversion 1 as [|? ? next ? ? Hk _]; subst.
    destruct Hblk as [Hnone|(v & Hv & Hobj)]; [congruence|].
    rewrite Hk in Hv. injection Hv as <-. by apply Hobj.
  - inversion Hpre as [|? ? next ? ? Hk Hrest]; subst.
    inversion 1 as [|? ? next' ? ? Hk' Hrest']; subst.
    rewrite Hk in Hk'. injection Hk' as <-. by eapply IH.
Qed.

(** C9.  [unnest] fails exactly when the walk along the keys is blocked at some
    key (absent, or not bound to a nested string-keyed map); it succeeds exactly
    with the map the walk reaches; one of the two always happens (the function
    is total: there is no third, abnormal, way out); and with no keys the input
    comes back unchanged. *)
Theorem unnest_spec (input : gmap string json) (keys : list string) :
  ((∃ e, unnest input keys = inr e) ↔ stops input keys)
  ∧ (∀ m, unnest input keys = inl m ↔ reaches input keys m)
  ∧ ((∃ e, unnest input keys = inr e) ∨ (∃ m, unnest input keys = inl m))
  ∧ unnest input [] = inl input.
Proof.
  split; [|split; [|split]].
  - split.
    + intros [e (pre & k & post & cur & ? & ? & ?%names_key_blocked)%unnest_inr].
      by exists pre, k, post, cur.
    + intros Hstop. destruct (unnest input keys) as [m|e] eqn:Hu; [|by eexists].
      apply unnest_inl in Hu. by apply stops_not_reaches in Hu.
  - intros m. apply unnest_inl.
  - destruct (unnest input keys); eauto.
  - done.
Qed.

(** ** Strings *)

Lemma string_app_empty (s : string) : "" +:+ s = s.
Proof. reflexivity. Qed.

Lemma string_app_cons (c : ascii) (a s : string) : String c a +:+ s = String c (a +:+ s).
Proof. reflexivity. Qed.

Lemma string_length_app (a b : string) :
  String.length (a +:+ b) = (String.length a + String.length b)%nat.
Proof.
  induction a as [|c a IH]; [done|]. rewrite string_app_cons. simpl. by rewrite IH.
Qed.

Lemma app_suffix_inj (a a' s s' : string) :
  String.length s = String.length s' → a +:+ s = a' +:+ s' → a = a' ∧ s = s'.
Proof.
  intros Hlen. revert a'. induction a as [|c a IH]; intros [|c' a'] Heq.
  - done.
  - exfalso. apply (f_equal String.length) in Heq.
    rewrite string_app_empty, string_app_cons in Heq. simpl in Heq. rewrite string_length_app in Heq. lia.
  - exfalso. apply (f_equal String.length) in Heq.
    rewrite string_app_empty, string_app_cons in Heq. simpl in Heq. rewrite string_length_app in Heq. lia.
  - rewrite !string_app_cons in Heq. injection Heq as -> Heq.
    destruct (IH _ Heq) as [-> ->]. done.
Qed.

Lemma suffix_inj (s a a' : string) : a +:+ s = a' +:+ s → a = a'.
Proof. intros H. by apply (app_suffix_inj a a' s s). Qed.

Lemma suffixes_differ (a a' : string) : a +:+ "Clientbound" ≠ a' +:+ "Serverbound".
Proof. intros H. by apply app_suffix_inj in H as [_ ?]. Qed.

(** ** [EnsureUniqueNames] *)

Lemma disambiguate_hit m k v :
  Serverbound m !! k = Some v →
  disambiguate m k
  = mkDuplex (<[k +:+ "Clientbound" := default "" (Clientbound m !! k)]> (delete k (Clientbound m)))
             (<[k +:+ "Serverbound" := v]> (delete k (Serverbound m))).
Proof. intros H. unfold disambiguate. by rewrite H. Qed.

Lemma disambiguate_miss m k : Serverbound m !! k = None → disambiguate m k = m.
Proof. intros H. unfold disambiguate. by rewrite H. Qed.

Lemma safe_step m k l :
  safe (Serverbound m) (k :: l) → safe (Serverbound (disambiguate m k)) l.
Proof.
  intros [[Hk Hnd]%NoDup_cons Hs]. split; [done|].
  destruct (Serverbound m !! k) as [v|] eqn:Hv.
  - rewrite (disambiguate_hit _ _ _ Hv). simpl. intros k' Hk' Hsome.
    destruct (Hs k) as [_ HkS]; [left|by rewrite Hv|].
    assert (k' ≠ k +:+ "Serverbound") by (intros ->; apply HkS; by right).
    assert (k' ≠ k) by (by intros ->).
    rewrite lookup_insert_ne, lookup_delete_ne in Hsome by done.
    destruct (Hs k') as [HC HS]; [by right|done|]. split.
    + rewrite lookup_insert_ne by (intros E; symmetry in E; by apply suffixes_differ in E).
      rewrite lookup_delete_ne; [done|]. intros ->. rewrite HC in Hv. done.
    + intros Hin. apply HS. by right.
  - rewrite (disambiguate_miss _ _ Hv). intros k' Hk' Hsome.
    destruct (Hs k') as [HC HS]; [by right|done|]. split; [done|].
    intros Hin. apply HS. by right.
Qed.

Lemma resolve_frame_server l m x :
  safe (Serverbound m) l →
  (x ∈ l → Serverbound m !! x = None) →
  (∀ k, k ∈ l → is_Some (Serverbound m !! k) → x ≠ k +:+ "Serverbound") →
  Serverbound (foldl disambiguate m l) !! x = Serverbound m !! x.
Proof.
  revert m. induction l as [|k0 l IH]; intros m Hsafe Hx Hne; [done|]. simpl.
  pose proof (safe_step _ _ _ Hsafe) as Hsafe'.
  destruct Hsafe as [[Hk0 Hnd]%NoDup_cons Hs].
  destruct (Serverbound m !! k0) as [v|] eqn:Hv.
  - assert (x ≠ k0 +:+ "Serverbound") by (apply Hne; [left|by rewrite Hv]).
    assert (x ≠ k0) by (intros ->; rewrite Hx in Hv by left; done).
    destruct (Hs k0) as [_ HkS]; [left|by rewrite Hv|].
    rewrite IH; [| done | |].
    + rewrite (disambiguate_hit _ _ _ Hv). simpl.
      by rewrite lookup_insert_ne, lookup_delete_ne.
    + intros Hin. rewrite (disambiguate_hit _ _ _ Hv). simpl.
      rewrite lookup_insert_ne, lookup_delete_ne by done. apply Hx. by right.
    + intros k Hk. rewrite (disambiguate_hit _ _ _ Hv). simpl. intros Hsome.
      assert (k ≠ k0 +:+ "Serverbound") by (intros ->; apply HkS; by right).
      assert (k ≠ k0) by (by intros ->).
      rewrite lookup_insert_ne, lookup_delete_ne in Hsome by done.
      apply Hne; [by right|done].
  - rewrite (disambiguate_miss _ _ Hv) in *. apply IH; [done| |].
    + intros Hin. apply Hx. by right.
    + intros k Hk. apply Hne. by right.
Qed.

Lemma resolve_frame_client l m x :
  safe (Serverbound m) l →
  (x ∈ l → Serverbound m !! x = None) →
  (∀ k, k ∈ l → is_Some (Serverbound m !! k) → x ≠ k +:+ "Clientbound") →
  Clientbound (foldl disambiguate m l) !! x = Clientbound m !! x.
Proof.
  revert m. induction l as [|k0 l IH]; intros m Hsafe Hx Hne; [done|]. simpl.
  pose proof (safe_step _ _ _ Hsafe) as Hsafe'.
  destruct Hsafe as [[Hk0 Hnd]%NoDup_cons Hs].
  destruct (Serverbound m !! k0) as [v|] eqn:Hv.
  - assert (x ≠ k0 +:+ "Clientbound") by (apply Hne; [left|by rewrite Hv]).
    assert (x ≠ k0) by (intros ->; rewrite Hx in Hv by left; done).
    destruct (Hs k0) as [_ HkS]; [left|by rewrite Hv|].
    rewrite IH; [| done | |].
    + rewrite (disambiguate_hit _ _ _ Hv). simpl.
      by rewrite lookup_insert_ne, lookup_delete_ne.
    + intros Hin. rewrite (disambiguate_hit _ _ _ Hv). simpl.
      assert (x ≠ k0 +:+ "Serverbound") by (intros ->; apply HkS; by right).
      rewrite lookup_insert_ne, lookup_delete_ne by done. apply Hx. by right.
    + intros k Hk. rewrite (disambiguate_hit _ _ _ Hv). simpl. intros Hsome.
      assert (k ≠ k0 +:+ "Serverbound") by (intros ->; apply HkS; by right).
      assert (k ≠ k0) by (by intros ->).
      rewrite lookup_insert_ne, lookup_delete_ne in Hsome by done.
      apply Hne; [by right|done].
  - rewrite (disambiguate_miss _ _ Hv) in *. apply IH; [done| |].
    + intros Hin. apply Hx. by right.
    + intros k Hk. apply Hne. by right.
Qed.

Lemma resolve_hit l m k :
  safe (Serverbound m) l → k ∈ l → is_Some (Serverbound m !! k) →
  Serverbound (foldl disambiguate m l) !! (k +:+ "Serverbound") = Serverbound m !! k
  ∧ Clientbound (foldl disambiguate m l) !! (k +:+ "Clientbound")
    = Some (default "" (Clientbound m !! k)).
Proof.
  revert m. induction l as [|k0 l IH]; intros m Hsafe Hin Hsome; [by inversion Hin|].
  simpl. pose proof (safe_step _ _ _ Hsafe) as Hsafe'.
  destruct Hsafe as [[Hk0 Hnd]%NoDup_cons Hs].
  destruct (decide (k = k0)) as [->|Hne].
  - destruct Hsome as [v Hv]. destruct (Hs k0) as [HC HS]; [left|by rewrite Hv|].
    assert (∀ k, k ∈ l → k ≠ k0) by (by intros ? ? ->).
    split.
    + rewrite resolve_frame_server; [| done | |].
      * rewrite (disambiguate_hit _ _ _ Hv). simpl. by rewrite lookup_insert_eq.
      * intros Hin'. exfalso. apply HS. by right.
      * intros k Hk _ E%suffix_inj. by eapply H.
    + rewrite resolve_frame_client; [| done | |].
      * rewrite (disambiguate_hit _ _ _ Hv). simpl. by rewrite lookup_insert_eq.
      * intros _. rewrite (disambiguate_hit _ _ _ Hv). simpl.
        rewrite lookup_insert_ne by (intros E; symmetry in E; by apply suffixes_differ in E).
        rewrite lookup_delete_ne; [done|]. intros E. rewrite E, HC in Hv. done.
      * intros k Hk _ E%suffix_inj. by eapply H.
  - assert (k ∈ l) as Hl by (by apply elem_of_cons in Hin as [?|?]).
    destruct (Serverbound m !! k0) as [v|] eqn:Hv.
    + destruct (Hs k0) as [HC HS]; [left|by rewrite Hv|].
      assert (k ≠ k0 +:+ "Serverbound") by (intros ->; apply HS; by right).
      assert (k ≠ k0 +:+ "Clientbound").
      { intros ->. rewrite HC in Hsome. by destruct Hsome. }
      destruct (IH (disambiguate m k0)) as [IHs IHc]; [done|done| |].
      { rewrite (disambiguate_hit _ _ _ Hv). simpl.
        by rewrite lookup_insert_ne, lookup_delete_ne. }
      rewrite IHs, IHc, (disambiguate_hit _ _ _ Hv). simpl.
      by rewrite !lookup_insert_ne, !lookup_delete_ne.
    + rewrite (disambiguate_miss _ _ Hv) in *. by apply IH.
Qed.

Lemma resolve_server_keys l m x :
  safe (Serverbound m) l →
  is_Some (Serverbound (foldl disambiguate m l) !! x) →
  (is_Some (Serverbound m !! x) ∧ x ∉ l)
  ∨ ∃ k, k ∈ l ∧ is_Some (Serverbound m !! k) ∧ x = k +:+ "Serverbound".
Proof.
  revert m. induction l as [|k0 l IH]; intros m Hsafe Hx.
  { left. split; [done|]. by inversion 1. }
  simpl in Hx. pose proof (safe_step _ _ _ Hsafe) as Hsafe'.
  destruct Hsafe as [[Hk0 Hnd]%NoDup_cons Hs].
  destruct (Serverbound m !! k0) as [v|] eqn:Hv.
  - destruct (Hs k0) as [HC HS]; [left|by rewrite Hv|].
    destruct (IH _ Hsafe' Hx) as [[Hsome Hnl]|(k & Hk & Hsome & ->)];
      rewrite (disambiguate_hit _ _ _ Hv) in Hsome; simpl in Hsome.
    + destruct (decide (x = k0 +:+ "Serverbound")) as [->|?].
      { right. exists k0. split; [left|]. split; [by rewrite Hv|done]. }
      rewrite lookup_insert_ne in Hsome by done.
      destruct (decide (x = k0)) as [->|?]; [by rewrite lookup_delete_eq in Hsome; destruct Hsome|].
      rewrite lookup_delete_ne in Hsome by done.
      left. split; [done|]. by intros [?|?]%elem_of_cons.
    + assert (k ≠ k0 +:+ "Serverbound") by (intros ->; apply HS; by right).
      assert (k ≠ k0) by (by intros ->).
      rewrite lookup_insert_ne, lookup_delete_ne in Hsome by done.
      right. exists k. split; [by right|done].
  - rewrite (disambiguate_miss _ _ Hv) in *.
    destruct (IH _ Hsafe' Hx) as [[Hsome Hnl]|(k & Hk & Hsome & ->)].
    + left. split; [done|]. intros [->|?]%elem_of_cons; [|done].
      rewrite Hv in Hsome. by destruct Hsome.
    + right. exists k. split; [by right|done].
Qed.

Lemma resolve_client_keys l m x :
  safe (Serverbound m) l →
  is_Some (Clientbound (foldl disambiguate m l) !! x) →
  (is_Some (Clientbound m !! x) ∧ ¬ (x ∈ l ∧ is_Some (Serverbound m !! x)))
  ∨ ∃ k, k ∈ l ∧ is_Some (Serverbound m !! k) ∧ x = k +:+ "Clientbound".
Proof.
  revert m. induction l as [|k0 l IH]; intros m Hsafe Hx.
  { left. split; [done|]. intros [Hin _]. by inversion Hin. }
  simpl in Hx. pose proof (safe_step _ _ _ Hsafe) as Hsafe'.
  destruct Hsafe as [[Hk0 Hnd]%NoDup_cons Hs].
  destruct (Serverbound m !! k0) as [v|] eqn:Hv.
  - destruct (Hs k0) as [HC HS]; [left|by rewrite Hv|].
    destruct (IH _ Hsafe' Hx) as [[Hsome Hnl]|(k & Hk & Hsome & ->)];
      rewrite (disambiguate_hit _ _ _ Hv) in *; simpl in *.
    + destruct (decide (x = k0 +:+ "Clientbound")) as [->|?].
      { right. exists k0. split; [left|]. split; [by rewrite Hv|done]. }
      rewrite lookup_insert_ne in Hsome by done.
      destruct (decide (x = k0)) as [->|?]; [by rewrite lookup_delete_eq in Hsome; destruct Hsome|].
      rewrite lookup_delete_ne in Hsome by done.
      left. split; [done|]. intros [[?|Hl]%elem_of_cons Hsx]; [done|].
      apply Hnl. split; [done|].
      destruct (decide (x = k0 +:+ "Serverbound")) as [->|?];
        [by rewrite lookup_insert_eq|by rewrite lookup_insert_ne, lookup_delete_ne].
    + assert (k ≠ k0 +:+ "Serverbound") by (intros ->; apply HS; by right).
      assert (k ≠ k0) by (by intros ->).
      rewrite lookup_insert_ne, lookup_delete_ne in Hsome by done.
      right. exists k. split; [by right|done].
  - rewrite (disambiguate_miss _ _ Hv) in *.
    destruct (IH _ Hsafe' Hx) as [[Hsome Hnl]|(k & Hk & Hsome & ->)].
    + left. split; [done|]. intros [[->|?]%elem_of_cons Hsx]; [|by apply Hnl].
      rewrite Hv in Hsx. by destruct Hsx.
    + right. exists k. split; [by right|done].
Qed.

Lemma clientKeys_fst {V} (entries : list (string * V)) (keys : list string) :
  foldl (λ keys e, keys ++ [e.1]) keys entries = keys ++ entries.*1.
Proof.
  revert keys. induction entries as [|e entries IH]; intros keys; simpl.
  - by rewrite app_nil_r.
  - by rewrite IH, <- app_assoc.
Qed.

Lemma no_suffix_clash_safe m l :
  no_suffix_clash m → l ≡ₚ (map_to_list (Clientbound m)).*1 → safe (Serverbound m) l.
Proof.
  intros Hclash Hl. split.
  - rewrite Hl. apply NoDup_fst_map_to_list.
  - intros k Hk Hsome.
    assert (is_Some (Clientbound m !! k)) as Hc.
    { rewrite Hl in Hk. apply list_elem_of_fmap in Hk as [[k' v] [-> Hkv]].
      apply elem_of_map_to_list in Hkv. by eexists. }
    destruct (Hclash k) as [HC HS].
    { unfold shared. apply elem_of_intersection. by rewrite !elem_of_dom. }
    split; [by apply not_elem_of_dom|].
    intros Hin. apply HS. rewrite Hl in Hin.
    apply list_elem_of_fmap in Hin as [[k' v] [E Hkv]]. simpl in E. subst k'.
    apply elem_of_map_to_list in Hkv. apply elem_of_dom. by eexists.
Qed.

Lemma resolve_resolved m l :
  no_suffix_clash m → l ≡ₚ (map_to_list (Clientbound m)).*1 →
  resolved m (foldl disambiguate m l).
Proof.
  intros Hclash Hl. pose proof (no_suffix_clash_safe _ _ Hclash Hl) as Hsafe.
  assert (∀ k, is_Some (Clientbound m !! k) → k ∈ l) as Hcover.
  { intros k [v Hv]. rewrite Hl. apply list_elem_of_fmap. exists (k, v).
    split; [done|]. by apply elem_of_map_to_list. }
  assert (∀ k, k ∈ l → is_Some (Serverbound m !! k) → k ∈ shared m) as Hshared.
  { intros k Hk Hs. unfold shared. apply elem_of_intersection.
    rewrite !elem_of_dom. split; [|done].
    rewrite Hl in Hk. apply list_elem_of_fmap in Hk as [[k' v] [-> Hkv]].
    apply elem_of_map_to_list in Hkv. by eexists. }
  split.
  - apply elem_of_equiv_empty_L. intros x [Hc Hs]%elem_of_intersection.
    apply elem_of_dom in Hc, Hs.
    destruct (resolve_client_keys _ _ _ Hsafe Hc) as [[Hc' Hn]|(k & Hk & Hks & ->)].
    + destruct (resolve_server_keys _ _ _ Hsafe Hs) as [[Hs' Hnl]|(k & Hk & Hks & ->)].
      * apply Hnl. by apply Hcover.
      * destruct (Hclash k) as [_ HS]; [by apply Hshared|].
        apply HS. by apply elem_of_dom.
    + destruct (resolve_server_keys _ _ _ Hsafe Hs) as [[Hs' Hnl]|(k' & Hk' & Hks' & E)].
      * destruct (Hclash k) as [HC _]; [by apply Hshared|].
        apply HC. by apply elem_of_dom.
      * by apply suffixes_differ in E.
  - intros k [Hc Hs]%elem_of_intersection. apply elem_of_dom in Hc, Hs.
    destruct (resolve_hit l m k) as [-> ->]; [done|by apply Hcover|done|].
    split; [|done]. by destruct Hc as [v ->].
Qed.

Section Orders.

Variable shuffle : nat → ∀ A : Type, list A → list A.
Hypothesis shuffle_perm : ∀ n A (l : list A), shuffle n A l ≡ₚ l.

(** C3 (amended).  When no shared name has its "Clientbound" form among the
    serverbound names or its "Serverbound" form among the clientbound names,
    then in whatever order the clientbound names are visited the resolved
    mappings have no name in common, and each previously shared name is found
    with suffix "Clientbound" in the clientbound mapping and with suffix
    "Serverbound" in the serverbound mapping, bound to its original id. *)
Theorem EnsureUniqueNames_resolves (m : duplexMappings) (w : World) :
  no_suffix_clash m →
  ∃ m', EnsureUniqueNames shuffle m w
        = (Done m', mkWorld (S (rand w)) (stderr w) (file w))
        ∧ resolved m m'.
Proof.
  intros Hclash. eexists. split; [reflexivity|].
  rewrite clientKeys_fst. simpl. apply resolve_resolved; [done|].
  by rewrite shuffle_perm.
Qed.

End Orders.

Example EnsureUniqueNames_chat :
  EnsureUniqueNames Run.in_order Inputs.chat Run.w0
  = (Done (mkDuplex {[ "SpawnEntity" := "5"; "ChatClientbound" := "6" ]}
                    {[ "ChatServerbound" := "3"; "UseItem" := "7" ]}),
     mkWorld 1 [] None).
Proof. vm_compute. reflexivity. Qed.

Lemma shared_chat : shared Inputs.chat = {[ "Chat" ]}.
Proof. vm_compute. reflexivity. Qed.

Lemma no_suffix_clash_chat : no_suffix_clash Inputs.chat.
Proof.
  intros k. rewrite shared_chat. intros ->%elem_of_singleton.
  split; apply not_elem_of_dom; vm_compute; reflexivity.
Defined.

Lemma EnsureUniqueNames_resolves_witness :
  no_suffix_clash Inputs.chat
  ∧ ∃ m', EnsureUniqueNames Run.in_order Inputs.chat Run.w0 = (Done m', mkWorld 1 [] None)
          ∧ resolved Inputs.chat m'.
Proof.
  split; [exact no_suffix_clash_chat|].
  apply (EnsureUniqueNames_resolves Run.in_order (λ _ _ l, Permutation_refl l)
           Inputs.chat Run.w0 no_suffix_clash_chat).
Defined.

(** The suffixed form of a shared name may already be taken on the other side:
    the resolved mappings then still have a name in common. *)
Lemma EnsureUniqueNames_clash :
  shared Inputs.clash = {[ "A" ]}
  ∧ EnsureUniqueNames Run.in_order Inputs.clash Run.w0
    = (Done Inputs.clash_resolved, mkWorld 1 [] None)
  ∧ shared Inputs.clash_resolved = {[ "AClientbound" ]}
  ∧ ¬ resolved Inputs.clash Inputs.clash_resolved.
Proof.
  assert (shared Inputs.clash_resolved = {[ "AClientbound" ]}) as Hshared
    by (vm_compute; reflexivity).
  split; [vm_compute; reflexivity|]. split; [vm_compute; reflexivity|].
  split; [done|]. intros [Hempty _]. rewrite Hshared in Hempty.
  by apply (non_empty_singleton_L (C:=gset string)) in Hempty.
Qed.

(** ** [unpackMapping] *)

Lemma packetMappings_run info w :
  packetMappings info w
  = (match leafOf info with Some mappings => Done mappings | None => Panicked end, w).
Proof.
  unfold packetMappings, leafOf, get, bind, index, assertArray, assertObject, ret, panic.
  destruct (info !! "packet") as [[| | | |l|]|]; simpl; try done.
  destruct (l !! 1%nat) as [[| | | |l1|]|]; simpl; try done.
  destruct (l1 !! 0%nat) as [[| | | | |o]|]; simpl; try done.
  destruct (o !! "type") as [[| | | |t|]|]; simpl; try done.
  destruct (t !! 1%nat) as [[| | | | |o1]|]; simpl; try done.
  destruct (o1 !! "mappings") as [[| | | | |mp]|]; simpl; done.
Qed.

Section Record.

Variable ToCamel : string → string.

Lemma foldM_record_text entries out w :
  forallb (λ e, is_string e.2) entries = true →
  foldM (record ToCamel) entries out w = (Done (foldl (recorded ToCamel) out entries), w).
Proof.
  revert out. induction entries as [|[k v] entries IH]; intros out Hall; [done|].
  simpl in Hall. apply andb_true_iff in Hall as [Hv Hall].
  destruct v; try discriminate. simpl. unfold bind, record. simpl.
  unfold bind. simpl. by rewrite IH.
Qed.

Lemma foldM_record_other entries out w :
  forallb (λ e, is_string e.2) entries = false →
  foldM (record ToCamel) entries out w = (Panicked, w).
Proof.
  revert out. induction entries as [|[k v] entries IH]; intros out Hall; [done|].
  simpl in Hall. apply andb_false_iff in Hall.
  destruct v; try done; simpl in *.
  destruct Hall as [?|Hall]; [done|].
  unfold bind, record. simpl. unfold bind. simpl. by rewrite IH.
Qed.

End Record.

Lemma forallb_perm {A} (p : A → bool) (l l' : list A) :
  l ≡ₚ l' → forallb p l = forallb p l'.
Proof.
  induction 1 as [|x l l' _ IH|x y l|l l' l'' _ IH1 _ IH2]; simpl.
  - done.
  - by rewrite IH.
  - destruct (p x), (p y); done.
  - by rewrite IH1.
Qed.

Section Navigation.

Variable ToCamel : string → string.
Variable shuffle : nat → ∀ A : Type, list A → list A.
Hypothesis shuffle_perm : ∀ n A (l : list A), shuffle n A l ≡ₚ l.

Lemma record_loop_run (mappings : gmap string json) (n : nat) out w :
  foldM (record ToCamel) (shuffle n _ (map_to_list mappings)) out w
  = (if forallb (λ e, is_string e.2) (map_to_list mappings)
     then Done (foldl (recorded ToCamel) out (shuffle n _ (map_to_list mappings)))
     else Panicked, w).
Proof.
  destruct (forallb _ (map_to_list mappings)) eqn:Hall.
  - apply foldM_record_text. by rewrite (forallb_perm _ _ _ (shuffle_perm _ _ _)).
  - apply foldM_record_other. by rewrite (forallb_perm _ _ _ (shuffle_perm _ _ _)).
Qed.

Lemma unpackMapping_run data gameState w :
  ∃ n, unpackMapping ToCamel shuffle data gameState w
       = (unpacked ToCamel shuffle data gameState (rand w), advance n w)
       ∧ (n ≤ 2)%nat
       ∧ (∀ out, unpacked ToCamel shuffle data gameState (rand w) = Done (inl out) →
            n = 2%nat).
Proof.
  unfold unpackMapping, unpacked, navigate.
  destruct (unnest data [gameState; "toClient"; "types"]) as [info|e].
  2: { exists 0%nat. destruct w. split; [done|]. split; [lia|done]. }
  unfold bind at 1. rewrite packetMappings_run.
  destruct (leafOf info) as [toClient|].
  2: { exists 0%nat. destruct w. split; [done|]. split; [lia|done]. }
  unfold bind at 1. unfold range at 1. cbv beta iota.
  unfold bind at 1. rewrite record_loop_run.
  destruct (forallb _ (map_to_list toClient)).
  2: { exists 1%nat. split; [done|]. split; [lia|done]. }
  cbv beta iota.
  destruct (unnest data [gameState; "toServer"; "types"]) as [info'|e].
  2: { exists 1%nat. split; [done|]. split; [lia|done]. }
  unfold bind at 1. rewrite packetMappings_run.
  destruct (leafOf info') as [toServer|].
  2: { exists 1%nat. split; [done|]. split; [lia|done]. }
  unfold bind at 1. unfold range at 1. cbv beta iota.
  unfold bind at 1. rewrite record_loop_run.
  destruct (forallb _ (map_to_list toServer)).
  2: { exists 2%nat. split; [done|]. split; [lia|done]. }
  exists 2%nat. split; [done|]. split; [lia|done].
Qed.

End Navigation.

Lemma navigate_direction data gameState dir ph mappings :
  data !! gameState = Some (JObject ph) →
  ph !! dir = Some (Run.direction_doc mappings) →
  navigate data gameState dir
  = if forallb (λ e, is_string e.2) (map_to_list mappings)
    then NavFound mappings else NavMismatch.
Proof.
  intros Hgs Hdir. unfold navigate. simpl. rewrite Hgs, Hdir.
  unfold Run.direction_doc. rewrite lookup_singleton_eq.
  unfold leafOf. rewrite lookup_singleton_eq. simpl.
  rewrite lookup_insert_ne by done. rewrite lookup_singleton_eq. simpl.
  rewrite lookup_insert_ne by done. by rewrite lookup_singleton_eq.
Qed.

Lemma navigate_phase data gameState toClient toServer :
  data !! gameState = Some (Run.phase_doc toClient toServer) →
  navigate data gameState "toClient"
  = (if forallb (λ e, is_string e.2) (map_to_list toClient)
     then NavFound toClient else NavMismatch)
  ∧ navigate data gameState "toServer"
    = (if forallb (λ e, is_string e.2) (map_to_list toServer)
       then NavFound toServer else NavMismatch).
Proof.
  intros Hgs. split; eapply navigate_direction; try exact Hgs.
  - apply lookup_insert_eq.
  - rewrite lookup_insert_ne by done. apply lookup_singleton_eq.
Qed.

Lemma navigate_error_names_key data gameState dir e :
  navigate data gameState dir = NavError e →
  ∃ pre k post cur,
    [gameState; dir; "types"] = pre ++ k :: post ∧ reaches data pre cur ∧ names_key e cur k.
Proof.
  unfold navigate.
  destruct (unnest data [gameState; dir; "types"]) as [info|e'] eqn:Hu.
  - destruct (leafOf info); [|done]. by destruct (forallb _ _).
  - intros [= <-]. by apply unnest_inr.
Qed.

Section Unpacking.

Variable ToCamel : string → string.
Variable shuffle : nat → ∀ A : Type, list A → list A.
Hypothesis shuffle_perm : ∀ n A (l : list A), shuffle n A l ≡ₚ l.

(** C1 (amended).  The navigation of one direction ends with an error only at
    one of the object steps phase, direction, "types", and the message then
    names the key at which the walk is blocked.  A mismatch at a later step
    ("packet", the positional indexing, the nested "type" descriptor,
    "mappings") or a declared name that is not text ends it in a panic.
    [unpackMapping] navigates toClient, then toServer, and ends as the first
    direction that does not arrive at its mappings ends; it returns mappings
    when both arrive. *)
Theorem unpackMapping_navigation data gameState w :
  (∀ dir e, navigate data gameState dir = NavError e →
     ∃ pre k post cur,
       [gameState; dir; "types"] = pre ++ k :: post
       ∧ reaches data pre cur ∧ names_key e cur k)
  ∧ match navigate data gameState "toClient" with
    | NavError e => (unpackMapping ToCamel shuffle data gameState w).1 = Done (inr e)
    | NavMismatch => (unpackMapping ToCamel shuffle data gameState w).1 = Panicked
    | NavFound _ =>
        match navigate data gameState "toServer" with
        | NavError e => (unpackMapping ToCamel shuffle data gameState w).1 = Done (inr e)
        | NavMismatch => (unpackMapping ToCamel shuffle data gameState w).1 = Panicked
        | NavFound _ =>
            ∃ out, (unpackMapping ToCamel shuffle data gameState w).1 = Done (inl out)
        end
    end.
Proof.
  split; [apply navigate_error_names_key|].
  destruct (unpackMapping_run ToCamel shuffle shuffle_perm data gameState w)
    as (n & -> & _). unfold unpacked. simpl.
  destruct (navigate data gameState "toClient"); [done..|].
  destruct (navigate data gameState "toServer"); [done..|]. by eexists.
Qed.

(** C10.  When two distinct raw names of one directional mapping normalise to
    the same identifier, [unpackMapping] returns a mapping with fewer entries
    than the schema has: one id is kept under the common name, the other is
    lost, and the iteration order decides which. *)
Theorem unpackMapping_overwrites (n1 n2 k1 k2 : string) (w : World) :
  n1 ≠ n2 → k1 ≠ k2 → ToCamel n1 = ToCamel n2 →
  let raw : gmap string json := {[ k1 := JString n1; k2 := JString n2 ]} in
  ∃ out w',
    unpackMapping ToCamel shuffle {[ "play" := Run.phase_doc raw ∅ ]} "play" w
    = (Done (inl out), w')
    ∧ (size (Clientbound out) < size raw)%nat
    ∧ (Clientbound out = {[ ToCamel n1 := k1 ]} ∨ Clientbound out = {[ ToCamel n1 := k2 ]}).
Proof.
  intros _ Hk Hcamel raw.
  assert (map_to_list raw ≡ₚ [(k1, JString n1); (k2, JString n2)]) as Hraw.
  { unfold raw. rewrite map_to_list_insert by (by rewrite lookup_singleton_ne).
    by rewrite map_to_list_singleton. }
  destruct (unpackMapping_run ToCamel shuffle shuffle_perm
              {[ "play" := Run.phase_doc raw ∅ ]} "play" w) as (n & Hrun & _).
  destruct (navigate_phase {[ "play" := Run.phase_doc raw ∅ ]} "play" raw ∅) as [Hc Hs];
    [apply lookup_singleton_eq|].
  rewrite (forallb_perm _ _ _ Hraw) in Hc. simpl in Hc.
  rewrite map_to_list_empty in Hs. simpl in Hs.
  unfold unpacked in Hrun. rewrite Hc, Hs in Hrun.
  eexists _, _. split; [exact Hrun|]. simpl.
  assert (size raw = 2%nat) as ->.
  { unfold raw. rewrite map_size_insert_None by (by rewrite lookup_singleton_ne).
    by rewrite map_size_singleton. }
  assert ([(k1, JString n1); (k2, JString n2)] ≡ₚ shuffle (rand w) _ (map_to_list raw))
    as Hperm by (symmetry; etrans; [apply shuffle_perm|exact Hraw]).
  apply Permutation_length_2_inv in Hperm as [-> | ->]; simpl; unfold recorded; simpl.
  - rewrite <- Hcamel, insert_insert_eq, insert_empty, map_size_singleton.
    split; [lia|by right].
  - rewrite Hcamel, insert_insert_eq, insert_empty, map_size_singleton.
    split; [lia|by left].
Qed.

End Unpacking.

(** A "types" object without "packet": the unchecked assertion on line 74
    panics, no error is returned. *)
Lemma unpackMapping_no_packet :
  unnest Documents.no_packet ["login"; "toClient"; "types"] = inl ∅
  ∧ unpackMapping Run.ToCamel Run.in_order Documents.no_packet "login" Run.w0
    = (Panicked, Run.w0).
Proof. split; vm_compute; reflexivity. Qed.

Lemma unpackMapping_navigation_witness :
  (∀ n A (l : list A), Run.in_order n A l ≡ₚ l)
  ∧ (unpackMapping Run.ToCamel Run.in_order Documents.no_packet "login" Run.w0).1 = Panicked.
Proof.
  split; [intros; reflexivity|].
  exact (proj2 (unpackMapping_navigation Run.ToCamel Run.in_order
                  (λ _ _ l, Permutation_refl l) Documents.no_packet "login" Run.w0)).
Defined.

Lemma unpackMapping_overwrites_witness :
  (∀ n A (l : list A), Run.in_order n A l ≡ₚ l)
  ∧ "chat" ≠ "Chat" ∧ "0x0e" ≠ "0x0f" ∧ Run.ToCamel "chat" = Run.ToCamel "Chat"
  ∧ ∃ out w',
      unpackMapping Run.ToCamel Run.in_order Documents.two_chats "play" Run.w0
      = (Done (inl out), w')
      ∧ (size (Clientbound out) < size (Run.names [("0x0e", "chat"); ("0x0f", "Chat")]))%nat
      ∧ (Clientbound out = {[ Run.ToCamel "chat" := "0x0e" ]}
         ∨ Clientbound out = {[ Run.ToCamel "chat" := "0x0f" ]}).
Proof.
  split; [intros; reflexivity|].
  split; [discriminate|]. split; [discriminate|]. split; [reflexivity|].
  apply (unpackMapping_overwrites Run.ToCamel Run.in_order (λ _ _ l, Permutation_refl l)
           "chat" "Chat" "0x0e" "0x0f" Run.w0); [discriminate|discriminate|reflexivity].
Defined.

(** Which id survives depends on the order of iteration. *)
Example two_chats_in_order :
  (unpackMapping Run.ToCamel Run.in_order Documents.two_chats "play" Run.w0).1
  = Done (inl (mkDuplex {[ "Chat" := "0x0f" ]} ∅)).
Proof. vm_compute. reflexivity. Qed.

Example two_chats_reversed :
  (unpackMapping Run.ToCamel Run.reversed Documents.two_chats "play" Run.w0).1
  = Done (inl (mkDuplex {[ "Chat" := "0x0e" ]} ∅)).
Proof. vm_compute. reflexivity. Qed.

(** ** [MaxLen] and the writer *)

Lemma foldl_longer es a :
  a ≤ foldl longer a es
  ∧ (∀ e, e ∈ es → len e.1 ≤ foldl longer a es)
  ∧ (foldl longer a es = a ∨ ∃ e, e ∈ es ∧ len e.1 = foldl longer a es).
Proof.
  revert a. induction es as [|e es IH]; intros a; simpl.
  - split; [lia|]. split; [by inversion 1|by left].
  - destruct (IH (longer a e)) as (Hle & Hall & Hatt).
    assert (a ≤ longer a e ∧ len e.1 ≤ longer a e
            ∧ (longer a e = a ∨ longer a e = len e.1)) as (Ha & He & Hor).
    { unfold longer. rewrite Z.gtb_ltb.
      destruct (a <? len e.1) eqn:E; [apply Z.ltb_lt in E|apply Z.ltb_ge in E]; lia. }
    split; [lia|]. split.
    + intros e' [->|Hin]%elem_of_cons; [lia|by apply Hall].
    + destruct Hatt as [Heq|(e' & Hin & Heq)].
      * destruct Hor as [Hor|Hor]; [left; congruence|].
        right. exists e. split; [left|congruence].
      * right. exists e'. split; [by right|done].
Qed.

Lemma length_repeat_string (s : string) (n : nat) :
  String.length (repeat_string s n) = (n * String.length s)%nat.
Proof.
  induction n as [|n IH]; [done|]. simpl. rewrite string_length_app, IH. lia.
Qed.

Lemma leading_declarations n (es : list (string * string)) s rest :
  leading ((declaration n <$> es) ++ Println s :: rest) = declaration n <$> es.
Proof. induction es as [|e es IH]; [done|]. csimpl. by rewrite IH. Qed.

Lemma following_declarations c n (es : list (string * string)) rest :
  following c ((declaration n <$> es) ++ rest) = following c rest.
Proof. induction es as [|e es IH]; [done|]. csimpl. by rewrite IH. Qed.

Lemma declared_declarations n (es : list (string * string)) :
  declared (declaration n <$> es) = es.
Proof.
  induction es as [|[k v] es IH]; [done|].
  unfold declared in *. csimpl. by rewrite IH.
Qed.

Lemma declared_app f f' : declared (f ++ f') = declared f ++ declared f'.
Proof. unfold declared. apply omap_app. Qed.

Lemma elem_of_concat {A} (x : A) (ls : list (list A)) :
  x ∈ concat ls ↔ ∃ l, x ∈ l ∧ l ∈ ls.
Proof.
  induction ls as [|l ls IH]; simpl.
  - split; [by inversion 1|]. intros (l & _ & Hl). by inversion Hl.
  - rewrite elem_of_app, IH. split.
    + intros [?|(l' & ? & ?)]; [exists l; split; [done|left]|exists l'; split; [done|by right]].
    + intros (l' & ? & [->|?]%elem_of_cons); [by left|right; by exists l'].
Qed.

Lemma group_in_groups g : g ∈ groups.
Proof. destruct g; unfold groups; repeat first [by left | right]. Qed.

Lemma bind_write {B} c (k : () → M B) r e f :
  bind (write c) k (mkWorld r e (Some f)) = k () (mkWorld r e (Some (f ++ [c]))).
Proof. reflexivity. Qed.

Lemma bind_Create {B} (k : () → M B) w :
  bind Create k w = k () (mkWorld (rand w) (stderr w) (Some [])).
Proof. reflexivity. Qed.

Section Writer.

Variable shuffle : nat → ∀ A : Type, list A → list A.
Hypothesis shuffle_perm : ∀ n A (l : list A), shuffle n A l ≡ₚ l.

Lemma visited_perm r p g : visited shuffle r p g ≡ₚ map_to_list (mapping p g).
Proof. apply shuffle_perm. Qed.

Lemma elem_of_visited r p g k v :
  (k, v) ∈ visited shuffle r p g ↔ mapping p g !! k = Some v.
Proof. rewrite visited_perm. apply elem_of_map_to_list. Qed.

Lemma MaxLen_run p w :
  MaxLen shuffle p w
  = (Done (foldl longer 0 (concat (visited shuffle (rand w) p <$> groups))), advance 6 w).
Proof.
  unfold MaxLen, groups, visited. simpl.
  unfold bind, range, ret, advance. simpl.
  by rewrite !foldl_app.
Qed.

Lemma MaxLen_longest p r :
  longest (foldl longer 0 (concat (visited shuffle r p <$> groups))) p.
Proof.
  destruct (foldl_longer (concat (visited shuffle r p <$> groups)) 0)
    as (Hpos & Hall & Hatt).
  assert (∀ e, e ∈ concat (visited shuffle r p <$> groups)
               ↔ ∃ g, mapping p g !! e.1 = Some e.2) as Hin.
  { intros [k v]. rewrite elem_of_concat. split.
    - intros (l & Hkv & (g & -> & _)%list_elem_of_fmap).
      exists g. by apply elem_of_visited in Hkv.
    - intros [g Hg]. exists (visited shuffle r p g). split.
      + by apply elem_of_visited.
      + apply list_elem_of_fmap. exists g. split; [done|]. apply group_in_groups. }
  assert (∀ g k, k ∈ dom (mapping p g) →
            len k ≤ foldl longer 0 (concat (visited shuffle r p <$> groups))) as Hbound.
  { intros g k [v Hv]%elem_of_dom. apply (Hall (k, v)). apply Hin. by exists g. }
  split; [done|].
  destruct Hatt as [Hzero|([k v] & [g Hg]%Hin & Heq)].
  - assert (∀ g, (∃ k, k ∈ dom (mapping p g) ∧ len k = 0) ∨ mapping p g = ∅) as Hcases.
    { intros g. destruct (map_choose_or_empty (mapping p g)) as [(k & v & Hkv)|?]; [|by right].
      left. exists k. assert (k ∈ dom (mapping p g)) by (apply elem_of_dom; by eexists).
      split; [done|]. specialize (Hbound g k H). rewrite Hzero in Hbound.
      unfold len in *. lia. }
    rewrite Hzero.
    destruct (Hcases LoginClientbound) as [[k ?]|?]; [left; by exists LoginClientbound, k|].
    destruct (Hcases LoginServerbound) as [[k ?]|?]; [left; by exists LoginServerbound, k|].
    destruct (Hcases PlayClientbound) as [[k ?]|?]; [left; by exists PlayClientbound, k|].
    destruct (Hcases PlayServerbound) as [[k ?]|?]; [left; by exists PlayServerbound, k|].
    destruct (Hcases StatusClientbound) as [[k ?]|?]; [left; by exists StatusClientbound, k|].
    destruct (Hcases StatusServerbound) as [[k ?]|?]; [left; by exists StatusServerbound, k|].
    right. split; [|done]. by intros [].
  - left. exists g, k. split; [apply elem_of_dom; by eexists|done].
Qed.

Lemma declare_loop n entries w f :
  file w = Some f →
  (∀ e, e ∈ entries → len e.1 ≤ n) →
  foldM (λ _ e, pad <- Repeat " " (n - len e.1); write (Decl e.1 pad e.2)) entries () w
  = (Done (), mkWorld (rand w) (stderr w) (Some (f ++ (declaration n <$> entries)))).
Proof.
  revert w f. induction entries as [|e entries IH]; intros w f Hf Hlen; simpl.
  - unfold ret. rewrite app_nil_r. destruct w; simpl in *. by subst.
  - unfold bind at 1. unfold bind at 1. unfold Repeat.
    assert ((n - len e.1 <? 0) = false) as ->.
    { apply Z.ltb_ge. assert (len e.1 ≤ n) by (apply Hlen; left). lia. }
    unfold ret at 1. cbv beta iota. unfold write at 1. cbv beta iota.
    rewrite (IH _ (f ++ [declaration n e])).
    + simpl. by rewrite <- app_assoc.
    + simpl. by rewrite Hf.
    + intros e' He'. apply Hlen. by right.
Qed.

Lemma declare_run n (m : gmap string string) r e f :
  (∀ k, k ∈ dom m → len k ≤ n) →
  declare shuffle n m (mkWorld r e (Some f))
  = (Done (), mkWorld (S r) e (Some (f ++ (declaration n <$> shuffle r _ (map_to_list m))))).
Proof.
  intros Hlen. unfold declare. unfold bind at 1. unfold range. cbv beta iota.
  rewrite (declare_loop n _ _ f); [done|done|].
  intros [k v] Hin. apply Hlen. rewrite shuffle_perm in Hin.
  apply elem_of_map_to_list in Hin. apply elem_of_dom. by eexists.
Qed.

Lemma bind_declare {B} n (m : gmap string string) (k : () → M B) r e f :
  (∀ k, k ∈ dom m → len k ≤ n) →
  bind (declare shuffle n m) k (mkWorld r e (Some f))
  = k () (mkWorld (S r) e
            (Some (f ++ (declaration n <$> shuffle r _ (map_to_list m))))).
Proof. intros Hlen. unfold bind. by rewrite declare_run. Qed.

End Writer.


(** ** The generated file *)

Lemma following_skip c s rest : s ≠ c → following c (Println s :: rest) = following c rest.
Proof. intros Hne. simpl. by rewrite decide_False. Qed.

Lemma following_hit c rest : following c (Println c :: rest) = leading rest.
Proof. simpl. by rewrite decide_True. Qed.

Lemma following_layout n order g :
  following (comment g) (layout n order) = declaration n <$> order g.
Proof.
  destruct g; unfold layout, header, block, comment; simpl app;
    repeat first
      [ rewrite following_hit; apply leading_declarations
      | rewrite following_declarations
      | rewrite following_skip by discriminate ].
Qed.

Lemma comment_in_layout n order g : Println (comment g) ∈ layout n order.
Proof.
  unfold layout, block. rewrite !elem_of_app, !elem_of_cons.
  destruct g; tauto.
Qed.

Lemma declared_block n order g : declared (block n order g) = order g.
Proof. unfold block. apply (declared_declarations n (order g)). Qed.

Lemma declared_layout n order : declared (layout n order) = concat (order <$> groups).
Proof.
  unfold layout. rewrite !declared_app, !declared_block. simpl.
  by rewrite !app_nil_r.
Qed.

Lemma Forall_layout (P : chunk → Prop) n order :
  (∀ s, P (Println s)) →
  (∀ g e, e ∈ order g → P (declaration n e)) →
  Forall P (layout n order).
Proof.
  intros Hprintln Hdecl.
  assert (∀ g, Forall P (block n order g)) as Hblock.
  { intros g. apply Forall_cons_2; [apply Hprintln|].
    apply Forall_fmap, Forall_forall. intros e He. by apply Hdecl with g. }
  unfold layout, header.
  repeat first [ apply Forall_app_2 | apply Hblock
               | apply Forall_cons_2; [apply Hprintln|] | apply Forall_nil_2 ].
Qed.

Lemma elem_of_layout_decl n order k pad v :
  Decl k pad v ∈ layout n order →
  ∃ g, (k, v) ∈ order g ∧ pad = repeat_string " " (Z.to_nat (n - len k)).
Proof.
  intros Hin.
  pose proof (Forall_layout
    (λ c, match c with
          | Decl k pad v =>
              ∃ g, (k, v) ∈ order g ∧ pad = repeat_string " " (Z.to_nat (n - len k))
          | Println _ => True
          end) n order) as Hall.
  rewrite Forall_forall in Hall.
  refine (Hall (λ _, I) _ (Decl k pad v) Hin).
  intros g [k' v'] He. by exists g.
Qed.

Lemma concat_fmap_perm {A B} (f f' : A → list B) (l : list A) :
  (∀ a, f a ≡ₚ f' a) → concat (f <$> l) ≡ₚ concat (f' <$> l).
Proof.
  intros Hf. induction l as [|a l IH]; [done|]. csimpl. by rewrite Hf, IH.
Qed.

Lemma length_concat_fmap {A B} (f : A → list B) (l : list A) :
  length (concat (f <$> l)) = sum_list ((λ a, length (f a)) <$> l).
Proof.
  induction l as [|a l IH]; [done|]. csimpl. by rewrite length_app, IH.
Qed.

Example sample_downloaded :
  downloadInfo Run.ToCamel Run.in_order Sample.env Run.w0
  = (Done (inl Sample.ids), Sample.downloaded).
Proof. vm_compute. reflexivity. Qed.

(** ** [downloadInfo] *)

Lemma elem_of_dom_recorded ToCamel (es : list (string * json)) out x :
  x ∈ dom (foldl (recorded ToCamel) out es)
  ↔ x ∈ dom out ∨ ∃ e, e ∈ es ∧ x = ToCamel (text e.2).
Proof.
  revert out. induction es as [|e es IH]; intros out; simpl.
  - split; [by left|]. intros [?|(e & He & _)]; [done|by inversion He].
  - rewrite IH. unfold recorded at 1. rewrite dom_insert_L, elem_of_union, elem_of_singleton.
    split.
    + intros [[->|?]|(e' & ? & ->)].
      * right. exists e. split; [left|done].
      * by left.
      * right. exists e'. split; [by right|done].
    + intros [?|(e' & [->|?]%elem_of_cons & ->)].
      * left. by right.
      * left. by left.
      * right. by exists e'.
Qed.

Lemma elem_of_fst_map_to_list {V} (m : gmap string V) (k : string) :
  k ∈ (map_to_list m).*1 ↔ k ∈ dom m.
Proof.
  rewrite list_elem_of_fmap, elem_of_dom. split.
  - intros ([k' v] & -> & Hin). apply elem_of_map_to_list in Hin. by eexists.
  - intros [v Hv]. exists (k, v). split; [done|]. by apply elem_of_map_to_list.
Qed.

Lemma recorded_values ToCamel (es : list (string * json)) out x v :
  foldl (recorded ToCamel) out es !! x = Some v →
  out !! x = Some v ∨ ∃ e, e ∈ es ∧ v = e.1.
Proof.
  revert out. induction es as [|e es IH]; intros out; simpl; [by left|].
  intros [Hout|(e' & He' & ->)]%IH.
  - unfold recorded in Hout. apply lookup_insert_Some in Hout as [[_ <-]|[_ ?]].
    + right. exists e. split; [left|done].
    + by left.
  - right. exists e'. split; [by right|done].
Qed.

Lemma resolve_values l m :
  NoDup l → (∀ k, k ∈ l → is_Some (Clientbound m !! k)) →
  (∀ x v, Clientbound (foldl disambiguate m l) !! x = Some v →
          ∃ x0, Clientbound m !! x0 = Some v)
  ∧ (∀ x v, Serverbound (foldl disambiguate m l) !! x = Some v →
            ∃ x0, Serverbound m !! x0 = Some v).
Proof.
  revert m. induction l as [|k0 l IH]; intros m Hnd Hin; simpl; [by eauto|].
  apply NoDup_cons in Hnd as [Hk0 Hnd].
  destruct (Serverbound m !! k0) as [s|] eqn:Hs.
  - destruct (Hin k0) as [c Hc]; [left|].
    pose proof (disambiguate_hit _ _ _ Hs) as Hd. rewrite Hc in Hd. simpl in Hd.
    destruct (IH (disambiguate m k0)) as [IHc IHs]; [done| |split].
    + intros k Hk. rewrite Hd. simpl.
      destruct (decide (k = k0 +:+ "Clientbound")) as [->|?]; [by rewrite lookup_insert_eq|].
      rewrite lookup_insert_ne by done. rewrite lookup_delete_ne by (by intros ->).
      apply Hin. by right.
    + intros x v [x0 Hx0]%IHc. rewrite Hd in Hx0. simpl in Hx0.
      apply lookup_insert_Some in Hx0 as [[_ <-]|[_ Hx0]]; [by exists k0|].
      apply lookup_delete_Some in Hx0 as [_ ?]. by exists x0.
    + intros x v [x0 Hx0]%IHs. rewrite Hd in Hx0. simpl in Hx0.
      apply lookup_insert_Some in Hx0 as [[_ <-]|[_ Hx0]]; [by exists k0|].
      apply lookup_delete_Some in Hx0 as [_ ?]. by exists x0.
  - rewrite (disambiguate_miss _ _ Hs). apply IH; [done|].
    intros k Hk. apply Hin. by right.
Qed.

Lemma resolution_ids_from_schema data gs raw m :
  resolution raw m → ids_from_schema data gs raw → ids_from_schema data gs m.
Proof.
  intros (l & Hl & ->) [HC HS].
  destruct (resolve_values l raw) as [Hc Hs].
  - rewrite Hl. apply NoDup_fst_map_to_list.
  - intros k Hk. rewrite Hl in Hk. apply elem_of_fst_map_to_list in Hk.
    by apply elem_of_dom.
  - split.
    + intros k v [x0 Hx0]%Hc. by eapply HC.
    + intros k v [x0 Hx0]%Hs. by eapply HS.
Qed.

Section Download.

Variable ToCamel : string → string.
Variable shuffle : nat → ∀ A : Type, list A → list A.
Hypothesis shuffle_perm : ∀ n A (l : list A), shuffle n A l ≡ₚ l.

Lemma dom_recorded_shuffled (mappings : gmap string json) r :
  dom (foldl (recorded ToCamel) ∅ (shuffle r _ (map_to_list mappings)))
  = list_to_set ((λ e, ToCamel (text e.2)) <$> map_to_list mappings).
Proof.
  apply set_eq. intros x.
  rewrite elem_of_dom_recorded, dom_empty_L, elem_of_list_to_set, list_elem_of_fmap.
  split.
  - intros [?|(e & He & ->)]; [set_solver|]. exists e. split; [done|].
    by rewrite shuffle_perm in He.
  - intros (e & -> & He). right. exists e. split; [|done]. by rewrite shuffle_perm.
Qed.

Lemma unpacked_dom data gs r raw :
  unpacked ToCamel shuffle data gs r = Done (inl raw) →
  dom (Clientbound raw) = normalized ToCamel data gs "toClient"
  ∧ dom (Serverbound raw) = normalized ToCamel data gs "toServer".
Proof.
  unfold unpacked, normalized.
  destruct (navigate data gs "toClient"); [done..|].
  destruct (navigate data gs "toServer"); [done..|].
  intros [= <-]. simpl. by rewrite !dom_recorded_shuffled.
Qed.

Lemma recorded_shuffled_ids (mappings : gmap string json) r x v :
  foldl (recorded ToCamel) ∅ (shuffle r _ (map_to_list mappings)) !! x = Some v →
  v ∈ dom mappings.
Proof.
  intros [?|([k n] & He & ->)]%recorded_values; [done|].
  rewrite shuffle_perm in He. apply elem_of_map_to_list in He.
  apply elem_of_dom. by eexists.
Qed.

Lemma unpacked_ids data gs r raw :
  unpacked ToCamel shuffle data gs r = Done (inl raw) → ids_from_schema data gs raw.
Proof.
  unfold unpacked, ids_from_schema, schema_ids.
  destruct (navigate data gs "toClient"); [done..|].
  destruct (navigate data gs "toServer"); [done..|].
  intros [= <-]. simpl. split; intros k v; apply recorded_shuffled_ids.
Qed.

Lemma EnsureUniqueNames_run m w :
  EnsureUniqueNames shuffle m w
  = (Done (foldl disambiguate m (shuffle (rand w) _ (map_to_list (Clientbound m))).*1),
     advance 1 w).
Proof. unfold EnsureUniqueNames, bind, range, ret. simpl. by rewrite clientKeys_fst. Qed.

Lemma EnsureUniqueNames_resolution m r :
  resolution m (foldl disambiguate m (shuffle r _ (map_to_list (Clientbound m))).*1).
Proof. eexists. split; [|done]. by rewrite shuffle_perm. Qed.

Lemma downloadInfo_inv env w p w1 :
  downloadInfo ToCamel shuffle env w = (Done (inl p), w1) →
  ∃ data, fetched env = Decoded data
    ∧ ∀ ph, ∃ raw,
        dom (Clientbound raw) = normalized ToCamel data (gameState ph) "toClient"
        ∧ dom (Serverbound raw) = normalized ToCamel data (gameState ph) "toServer"
        ∧ resolution raw (of_phase p ph)
        ∧ ids_from_schema data (gameState ph) (of_phase p ph).
Proof.
  unfold downloadInfo. destruct (fetched env) as [e|e|data]; [done..|].
  unfold bind at 1.
  destruct (unpackMapping_run ToCamel shuffle shuffle_perm data "login" w) as (n1 & -> & _).
  destruct (unpacked ToCamel shuffle data "login" (rand w)) as [[rl|e]| |] eqn:Hl; [|done..].
  unfold bind at 1. rewrite EnsureUniqueNames_run.
  unfold bind at 1.
  match goal with |- context [unpackMapping _ _ data "play" ?w'] =>
    destruct (unpackMapping_run ToCamel shuffle shuffle_perm data "play" w') as (n2 & -> & _);
    destruct (unpacked ToCamel shuffle data "play" (rand w')) as [[rp|e]| |] eqn:Hp; [|done..]
  end.
  unfold bind at 1. rewrite EnsureUniqueNames_run.
  unfold bind at 1.
  match goal with |- context [unpackMapping _ _ data "status" ?w'] =>
    destruct (unpackMapping_run ToCamel shuffle shuffle_perm data "status" w') as (n3 & -> & _);
    destruct (unpacked ToCamel shuffle data "status" (rand w')) as [[rs|e]| |] eqn:Hs; [|done..]
  end.
  unfold bind at 1. rewrite EnsureUniqueNames_run.
  intros [= <- _]. exists data. split; [done|].
  intros [].
  - exists rl. destruct (unpacked_dom _ _ _ _ Hl) as [-> ->].
    split; [done|]. split; [done|].
    split; [apply EnsureUniqueNames_resolution|].
    eapply resolution_ids_from_schema; [apply EnsureUniqueNames_resolution|].
    by eapply unpacked_ids.
  - exists rp. destruct (unpacked_dom _ _ _ _ Hp) as [-> ->].
    split; [done|]. split; [done|].
    split; [apply EnsureUniqueNames_resolution|].
    eapply resolution_ids_from_schema; [apply EnsureUniqueNames_resolution|].
    by eapply unpacked_ids.
  - exists rs. destruct (unpacked_dom _ _ _ _ Hs) as [-> ->].
    split; [done|]. split; [done|].
    split; [apply EnsureUniqueNames_resolution|].
    eapply resolution_ids_from_schema; [apply EnsureUniqueNames_resolution|].
    by eapply unpacked_ids.
Qed.

(** [downloadInfo] only draws iteration orders: it prints nothing and does
    not touch the file. *)
Lemma downloadInfo_world env w :
  ∃ n, (downloadInfo ToCamel shuffle env w).2 = advance n w.
Proof.
  unfold downloadInfo. destruct (fetched env) as [e|e|data];
    [exists 0%nat; by destruct w..|].
  unfold bind at 1.
  destruct (unpackMapping_run ToCamel shuffle shuffle_perm data "login" w) as (n1 & -> & _).
  destruct (unpacked ToCamel shuffle data "login" (rand w)) as [[rl|e]| |];
    [|by exists n1..].
  unfold bind at 1. rewrite EnsureUniqueNames_run. unfold bind at 1.
  match goal with |- context [unpackMapping _ _ data "play" ?w'] =>
    destruct (unpackMapping_run ToCamel shuffle shuffle_perm data "play" w') as (n2 & -> & _);
    destruct (unpacked ToCamel shuffle data "play" (rand w')) as [[rp|e]| |];
      [|exists (n2 + (1 + n1))%nat; unfold advance; simpl; f_equal; lia..]
  end.
  unfold bind at 1. rewrite EnsureUniqueNames_run. unfold bind at 1.
  match goal with |- context [unpackMapping _ _ data "status" ?w'] =>
    destruct (unpackMapping_run ToCamel shuffle shuffle_perm data "status" w') as (n3 & -> & _);
    destruct (unpacked ToCamel shuffle data "status" (rand w')) as [[rs|e]| |];
      [|exists (n3 + (1 + (n2 + (1 + n1))))%nat; unfold advance; simpl; f_equal; lia..]
  end.
  unfold bind at 1. rewrite EnsureUniqueNames_run.
  exists (1 + (n3 + (1 + (n2 + (1 + n1)))))%nat. unfold advance. simpl. f_equal. lia.
Qed.

End Download.

Section Main.

Variable ToCamel : string → string.
Variable shuffle : nat → ∀ A : Type, list A → list A.
Hypothesis shuffle_perm : ∀ n A (l : list A), shuffle n A l ≡ₚ l.

Lemma main_run env w p w1 :
  downloadInfo ToCamel shuffle env w = (Done (inl p), w1) →
  create_err env = None →
  main ToCamel shuffle env w
  = (Done (), mkWorld (12 + rand w1) (stderr w1)
       (Some (layout (foldl longer 0 (concat (visited shuffle (rand w1) p <$> groups)))
                     (visited shuffle (6 + rand w1) p)))).
Proof.
  intros Hd Hc. unfold main. unfold bind at 1. rewrite Hd. cbv beta iota.
  unfold bind at 1. rewrite MaxLen_run. cbv beta iota. rewrite Hc.
  pose proof (MaxLen_longest shuffle shuffle_perm p (rand w1)) as [Hbound _].
  set (n := foldl longer 0 (concat (visited shuffle (rand w1) p <$> groups))) in *.
  rewrite bind_Create. cbv beta.
  repeat (first [ rewrite bind_write
                | rewrite (bind_declare shuffle shuffle_perm n) by apply (Hbound LoginClientbound)
                | rewrite (bind_declare shuffle shuffle_perm n) by apply (Hbound LoginServerbound)
                | rewrite (bind_declare shuffle shuffle_perm n) by apply (Hbound PlayClientbound)
                | rewrite (bind_declare shuffle shuffle_perm n) by apply (Hbound PlayServerbound)
                | rewrite (bind_declare shuffle shuffle_perm n) by apply (Hbound StatusClientbound)
                | rewrite (bind_declare shuffle shuffle_perm n) by apply (Hbound StatusServerbound) ];
          cbv beta).
  unfold write, advance. cbn [rand stderr file fmap option_fmap option_map].
  do 3 f_equal. unfold layout, header, block, visited.
  cbn [app position Nat.add]. by rewrite <- !app_assoc.
Qed.

(** C6.  A successful run writes the header, then one constant block: the
    six groups in the order login-clientbound, login-serverbound, blank
    line, play-clientbound, play-serverbound, blank line, status-clientbound,
    status-serverbound, blank line; each group is its comment line followed
    by one declaration line per entry of its mapping (in some order), and a
    declaration line is the name, spaces up to [maxLen] columns, the type
    annotation and the id, which is the text of one of the ids the schema
    lists for that phase and direction. *)
Theorem main_layout env w p w1 data :
  downloadInfo ToCamel shuffle env w = (Done (inl p), w1) →
  create_err env = None →
  fetched env = Decoded data →
  ∃ maxLen w2 order w',
    MaxLen shuffle p w1 = (Done maxLen, w2)
    ∧ (∀ g, order g ≡ₚ map_to_list (mapping p g))
    ∧ main ToCamel shuffle env w = (Done (), w')
    ∧ file w' = Some (layout maxLen order)
    ∧ (∀ k v, bytes (declaration maxLen (k, v))
              = "  " +:+ k +:+ repeat_string " " (Z.to_nat (maxLen - len k))
                +:+ " PktID = " +:+ v +:+ GoFmt.newline)
    ∧ (∀ ph, ids_from_schema data (gameState ph) (of_phase p ph)).
Proof.
  intros Hd Hc Hf. eexists _, _, (visited shuffle (6 + rand w1) p), _.
  split; [apply (MaxLen_run shuffle)|].
  split; [intros g; apply (visited_perm shuffle shuffle_perm)|].
  split; [by apply main_run|]. split; [done|]. split; [done|].
  destruct (downloadInfo_inv ToCamel shuffle shuffle_perm _ _ _ _ Hd)
    as (data' & Hf' & Hph).
  rewrite Hf in Hf'. injection Hf' as <-.
  intros ph. by destruct (Hph ph) as (raw & _ & _ & _ & ?).
Qed.

(** C5.  The width computed by [MaxLen] is the length of the longest name of
    the six mappings taken together, and in the file of a successful run the
    name and the padding of every declaration line fill exactly that many
    columns. *)
Theorem main_alignment env w p w1 :
  downloadInfo ToCamel shuffle env w = (Done (inl p), w1) →
  create_err env = None →
  ∃ maxLen w2 w' f,
    MaxLen shuffle p w1 = (Done maxLen, w2)
    ∧ longest maxLen p
    ∧ main ToCamel shuffle env w = (Done (), w')
    ∧ file w' = Some f
    ∧ (∀ k pad v, Decl k pad v ∈ f → len (k +:+ pad) = maxLen).
Proof.
  intros Hd Hc. eexists _, _, _, _.
  split; [apply (MaxLen_run shuffle)|].
  pose proof (MaxLen_longest shuffle shuffle_perm p (rand w1)) as Hlong.
  split; [exact Hlong|].
  split; [by apply main_run|]. split; [done|].
  intros k pad v (g & Hin & ->)%elem_of_layout_decl.
  apply (elem_of_visited shuffle shuffle_perm) in Hin.
  destruct Hlong as [Hbound _].
  assert (len k ≤ foldl longer 0 (concat (visited shuffle (rand w1) p <$> groups))).
  { apply (Hbound g). apply elem_of_dom. by eexists. }
  unfold len in *. rewrite string_length_app, length_repeat_string.
  change (String.length " ") with 1%nat. lia.
Qed.

Lemma phase_groups_disjoint env w p w1 data ph k :
  downloadInfo ToCamel shuffle env w = (Done (inl p), w1) →
  fetched env = Decoded data →
  clash_free ToCamel data (gameState ph) →
  k ∈ dom (mapping p (toClient_group ph)) → k ∉ dom (mapping p (toServer_group ph)).
Proof.
  intros Hd Hf Hfree.
  destruct (downloadInfo_inv ToCamel shuffle shuffle_perm _ _ _ _ Hd) as (data' & Hf' & Hph).
  rewrite Hf in Hf'. injection Hf' as <-.
  destruct (Hph ph) as (raw & HdC & HdS & (l & Hl & Hres) & _).
  assert (no_suffix_clash raw) as Hclash.
  { intros k' [Hc' Hs']%elem_of_intersection. rewrite HdC, HdS in *. by apply Hfree. }
  destruct (resolve_resolved raw l Hclash Hl) as [Hshared _].
  rewrite <- Hres in Hshared.
  assert (mapping p (toClient_group ph) = Clientbound (of_phase p ph)) as -> by (by destruct ph).
  assert (mapping p (toServer_group ph) = Serverbound (of_phase p ph)) as -> by (by destruct ph).
  intros HC HS. apply (not_elem_of_empty (C:=gset string) k). rewrite <- Hshared.
  by apply elem_of_intersection.
Qed.

Lemma declaration_inj n e e' : declaration n e = declaration n e' → e = e'.
Proof. destruct e, e'. unfold declaration. simpl. by intros [= -> _ ->]. Qed.

(** C7 (amended).  The file of a successful run has as many declaration lines
    as the six mappings have entries, and the lines under each group's
    comment are, up to order, exactly the entries of that group's mapping:
    each entry is written once, none is left out and there is no other
    declaration line.  No line is repeated within a group, nor between the two
    groups of a phase whose schema meets the side condition of C4.  Lines of
    different phases are not compared and may be the same. *)
Theorem main_declares_each_entry_once env w p w1 data :
  downloadInfo ToCamel shuffle env w = (Done (inl p), w1) →
  create_err env = None →
  fetched env = Decoded data →
  ∃ w' f,
    main ToCamel shuffle env w = (Done (), w')
    ∧ file w' = Some f
    ∧ length (declared f) = sum_list ((λ g, size (mapping p g)) <$> groups)
    ∧ declared f ≡ₚ concat ((λ g, map_to_list (mapping p g)) <$> groups)
    ∧ (∀ g, declared (following (comment g) f) ≡ₚ map_to_list (mapping p g)
            ∧ NoDup (following (comment g) f))
    ∧ (∀ ph, clash_free ToCamel data (gameState ph) →
         ∀ c, c ∈ following (comment (toClient_group ph)) f →
              c ∉ following (comment (toServer_group ph)) f).
Proof.
  intros Hd Hc Hf. eexists _, _.
  split; [by apply main_run|]. split; [done|].
  pose proof (visited_perm shuffle shuffle_perm (6 + rand w1) p) as Hperm.
  rewrite declared_layout. split; [|split; [|split]].
  - rewrite length_concat_fmap. f_equal. apply list_fmap_ext. intros _ g _.
    rewrite Hperm. apply length_map_to_list.
  - by apply concat_fmap_perm.
  - intros g. rewrite following_layout, declared_declarations.
    split; [done|]. apply NoDup_fmap_2_strong.
    + intros e e' _ _. apply declaration_inj.
    + rewrite Hperm. apply NoDup_map_to_list.
  - intros ph Hfree c. rewrite !following_layout, !list_elem_of_fmap.
    intros ([k v] & -> & He) ([k' v'] & Heq & He').
    apply declaration_inj in Heq. injection Heq as <- <-.
    apply (elem_of_visited shuffle shuffle_perm) in He, He'.
    apply (phase_groups_disjoint env w p w1 data ph k Hd Hf Hfree);
      apply elem_of_dom; by eexists.
Qed.

(** C8.  A group whose mapping is empty still has its comment line in the
    file, and no declaration line follows that comment. *)
Theorem main_empty_group env w p w1 g :
  downloadInfo ToCamel shuffle env w = (Done (inl p), w1) →
  create_err env = None →
  mapping p g = ∅ →
  ∃ w' f,
    main ToCamel shuffle env w = (Done (), w')
    ∧ file w' = Some f
    ∧ Println (comment g) ∈ f
    ∧ following (comment g) f = [].
Proof.
  intros Hd Hc Hempty. eexists _, _.
  split; [by apply main_run|]. split; [done|].
  split; [apply comment_in_layout|].
  rewrite following_layout.
  pose proof (visited_perm shuffle shuffle_perm (6 + rand w1) p g) as Hperm.
  rewrite Hempty, map_to_list_empty in Hperm.
  by apply Permutation_nil_r in Hperm as ->.
Qed.

(** Whatever error [downloadInfo] returns, [main] prints it on the standard
    error stream and exits with status 1; the file is not created or written. *)
Lemma main_aborts env w err w1 :
  downloadInfo ToCamel shuffle env w = (Done (inr err), w1) →
  main ToCamel shuffle env w
  = (Exited 1, mkWorld (rand w1) (stderr w ++ ["Error: " +:+ err +:+ GoFmt.newline]) (file w)).
Proof.
  intros Hd. destruct (downloadInfo_world ToCamel shuffle shuffle_perm env w) as [n Hw].
  rewrite Hd in Hw. simpl in Hw. subst w1.
  unfold main. unfold bind at 1. by rewrite Hd.
Qed.

(** C4 (amended).  In the file of a successful run no name occurs twice
    under one group's comment; and the two groups of a phase have no name in
    common when, in the schema of that phase, no name declared in both
    directions has its "Clientbound" form among the serverbound names or its
    "Serverbound" form among the clientbound names.  Nothing is said of names
    of different phases. *)
Theorem main_names_unique_per_phase env w p w1 data :
  downloadInfo ToCamel shuffle env w = (Done (inl p), w1) →
  create_err env = None →
  fetched env = Decoded data →
  ∃ w' f,
    main ToCamel shuffle env w = (Done (), w')
    ∧ file w' = Some f
    ∧ (∀ g, NoDup (names_under g f))
    ∧ (∀ ph, clash_free ToCamel data (gameState ph) →
         ∀ k, k ∈ names_under (toClient_group ph) f →
              k ∉ names_under (toServer_group ph) f).
Proof.
  intros Hd Hc Hf. eexists _, _.
  split; [by apply main_run|]. split; [done|].
  set (n := foldl longer 0 _). set (order := visited shuffle (6 + rand w1) p).
  assert (∀ g, names_under g (layout n order) ≡ₚ (map_to_list (mapping p g)).*1) as Hnames.
  { intros g. unfold names_under, order.
    rewrite following_layout, declared_declarations.
    by rewrite (visited_perm shuffle shuffle_perm). }
  split.
  - intros g. rewrite Hnames. apply NoDup_fst_map_to_list.
  - intros ph Hfree k. rewrite !Hnames, !elem_of_fst_map_to_list.
    destruct (downloadInfo_inv ToCamel shuffle shuffle_perm _ _ _ _ Hd)
      as (data' & Hf' & Hph).
    rewrite Hf in Hf'. injection Hf' as <-.
    destruct (Hph ph) as (raw & HdC & HdS & (l & Hl & Hres) & _).
    assert (no_suffix_clash raw) as Hclash.
    { intros k' [Hc' Hs']%elem_of_intersection. rewrite HdC, HdS in *. by apply Hfree. }
    destruct (resolve_resolved raw l Hclash Hl) as [Hshared _].
    rewrite <- Hres in Hshared.
    assert (mapping p (toClient_group ph) = Clientbound (of_phase p ph)) as -> by (by destruct ph).
    assert (mapping p (toServer_group ph) = Serverbound (of_phase p ph)) as -> by (by destruct ph).
    intros HC HS. apply (not_elem_of_empty (C:=gset string) k). rewrite <- Hshared.
    by apply elem_of_intersection.
Qed.

End Main.

(** ** Runs on concrete schemas *)

Lemma main_layout_witness :
  (∀ n A (l : list A), Run.in_order n A l ≡ₚ l)
  ∧ downloadInfo Run.ToCamel Run.in_order Sample.env Run.w0
    = (Done (inl Sample.ids), Sample.downloaded)
  ∧ create_err Sample.env = None
  ∧ fetched Sample.env = Decoded Sample.doc
  ∧ ∃ maxLen w2 order w',
      MaxLen Run.in_order Sample.ids Sample.downloaded = (Done maxLen, w2)
      ∧ (∀ g, order g ≡ₚ map_to_list (mapping Sample.ids g))
      ∧ main Run.ToCamel Run.in_order Sample.env Run.w0 = (Done (), w')
      ∧ file w' = Some (layout maxLen order)
      ∧ (∀ k v, bytes (declaration maxLen (k, v))
                = "  " +:+ k +:+ repeat_string " " (Z.to_nat (maxLen - len k))
                  +:+ " PktID = " +:+ v +:+ GoFmt.newline)
      ∧ (∀ ph, ids_from_schema Sample.doc (gameState ph) (of_phase Sample.ids ph)).
Proof.
  split; [intros; reflexivity|]. split; [vm_compute; reflexivity|]. split; [reflexivity|].
  split; [reflexivity|].
  apply (main_layout Run.ToCamel Run.in_order (λ _ _ l, Permutation_refl l)
           Sample.env Run.w0 Sample.ids Sample.downloaded Sample.doc);
    [vm_compute; reflexivity|reflexivity|reflexivity].
Defined.

Lemma main_alignment_witness :
  (∀ n A (l : list A), Run.in_order n A l ≡ₚ l)
  ∧ downloadInfo Run.ToCamel Run.in_order Sample.env Run.w0
    = (Done (inl Sample.ids), Sample.downloaded)
  ∧ create_err Sample.env = None
  ∧ ∃ maxLen w2 w' f,
      MaxLen Run.in_order Sample.ids Sample.downloaded = (Done maxLen, w2)
      ∧ longest maxLen Sample.ids
      ∧ main Run.ToCamel Run.in_order Sample.env Run.w0 = (Done (), w')
      ∧ file w' = Some f
      ∧ (∀ k pad v, Decl k pad v ∈ f → len (k +:+ pad) = maxLen).
Proof.
  split; [intros; reflexivity|]. split; [vm_compute; reflexivity|]. split; [reflexivity|].
  apply (main_alignment Run.ToCamel Run.in_order (λ _ _ l, Permutation_refl l)
           Sample.env Run.w0 Sample.ids Sample.downloaded);
    [vm_compute; reflexivity|reflexivity].
Defined.

Lemma main_declares_each_entry_once_witness :
  (∀ n A (l : list A), Run.in_order n A l ≡ₚ l)
  ∧ downloadInfo Run.ToCamel Run.in_order Sample.env Run.w0
    = (Done (inl Sample.ids), Sample.downloaded)
  ∧ create_err Sample.env = None
  ∧ fetched Sample.env = Decoded Sample.doc
  ∧ ∃ w' f,
      main Run.ToCamel Run.in_order Sample.env Run.w0 = (Done (), w')
      ∧ file w' = Some f
      ∧ length (declared f) = sum_list ((λ g, size (mapping Sample.ids g)) <$> groups)
      ∧ declared f ≡ₚ concat ((λ g, map_to_list (mapping Sample.ids g)) <$> groups)
      ∧ (∀ g, declared (following (comment g) f) ≡ₚ map_to_list (mapping Sample.ids g)
              ∧ NoDup (following (comment g) f))
      ∧ (∀ ph, clash_free Run.ToCamel Sample.doc (gameState ph) →
           ∀ c, c ∈ following (comment (toClient_group ph)) f →
                c ∉ following (comment (toServer_group ph)) f).
Proof.
  split; [intros; reflexivity|]. split; [vm_compute; reflexivity|]. split; [reflexivity|].
  split; [reflexivity|].
  apply (main_declares_each_entry_once Run.ToCamel Run.in_order (λ _ _ l, Permutation_refl l)
           Sample.env Run.w0 Sample.ids Sample.downloaded Sample.doc);
    [vm_compute; reflexivity|reflexivity|reflexivity].
Defined.

(** The same name with the same id in two phases is written as the same line
    twice. *)
Lemma main_repeats_line_across_phases :
  (main Run.ToCamel Run.in_order Repeats.env Run.w0).1 = Done ()
  ∧ following (comment LoginClientbound)
      <$> file (main Run.ToCamel Run.in_order Repeats.env Run.w0).2
    = Some [Decl "Disconnect" "" "0x00"]
  ∧ following (comment PlayClientbound)
      <$> file (main Run.ToCamel Run.in_order Repeats.env Run.w0).2
    = Some [Decl "Disconnect" "" "0x00"]
  ∧ declared <$> file (main Run.ToCamel Run.in_order Repeats.env Run.w0).2
    = Some [("Disconnect", "0x00"); ("Disconnect", "0x00")]
  ∧ bytes (Decl "Disconnect" "" "0x00")
    = "  Disconnect PktID = 0x00" +:+ GoFmt.newline.
Proof. repeat split; vm_compute; reflexivity. Qed.

Lemma main_empty_group_witness :
  (∀ n A (l : list A), Run.in_order n A l ≡ₚ l)
  ∧ downloadInfo Run.ToCamel Run.in_order Sample.env Run.w0
    = (Done (inl Sample.ids), Sample.downloaded)
  ∧ create_err Sample.env = None
  ∧ mapping Sample.ids StatusClientbound = ∅
  ∧ ∃ w' f,
      main Run.ToCamel Run.in_order Sample.env Run.w0 = (Done (), w')
      ∧ file w' = Some f
      ∧ Println (comment StatusClientbound) ∈ f
      ∧ following (comment StatusClientbound) f = [].
Proof.
  split; [intros; reflexivity|]. split; [vm_compute; reflexivity|]. split; [reflexivity|].
  split; [reflexivity|].
  apply (main_empty_group Run.ToCamel Run.in_order (λ _ _ l, Permutation_refl l)
           Sample.env Run.w0 Sample.ids Sample.downloaded StatusClientbound);
    [vm_compute; reflexivity|reflexivity|reflexivity].
Defined.

Lemma clash_free_sample_play : clash_free Run.ToCamel Sample.doc "play".
Proof.
  assert (normalized Run.ToCamel Sample.doc "play" "toClient" = {[ "SpawnEntity"; "Chat" ]})
    as Hc by (vm_compute; reflexivity).
  assert (normalized Run.ToCamel Sample.doc "play" "toServer" = {[ "Chat"; "UseItem" ]})
    as Hs by (vm_compute; reflexivity).
  intros k. rewrite Hc, Hs. clear Hc Hs. rewrite !elem_of_union, !elem_of_singleton.
  intros [->| ->] [H|H]; try (exfalso; clear -H; discriminate H).
  clear H. split; intros [H|H]; vm_compute in H; discriminate H.
Qed.

Lemma main_names_unique_per_phase_witness :
  (∀ n A (l : list A), Run.in_order n A l ≡ₚ l)
  ∧ downloadInfo Run.ToCamel Run.in_order Sample.env Run.w0
    = (Done (inl Sample.ids), Sample.downloaded)
  ∧ create_err Sample.env = None
  ∧ fetched Sample.env = Decoded Sample.doc
  ∧ ∃ w' f,
      main Run.ToCamel Run.in_order Sample.env Run.w0 = (Done (), w')
      ∧ file w' = Some f
      ∧ (∀ g, NoDup (names_under g f))
      ∧ (∀ ph, clash_free Run.ToCamel Sample.doc (gameState ph) →
           ∀ k, k ∈ names_under (toClient_group ph) f →
                k ∉ names_under (toServer_group ph) f).
Proof.
  split; [intros; reflexivity|]. split; [vm_compute; reflexivity|]. split; [reflexivity|].
  split; [reflexivity|].
  apply (main_names_unique_per_phase Run.ToCamel Run.in_order (λ _ _ l, Permutation_refl l)
           Sample.env Run.w0 Sample.ids Sample.downloaded Sample.doc);
    [vm_compute; reflexivity|reflexivity|reflexivity].
Defined.

(** The same name declared by two phases is written twice. *)
Lemma main_repeats_name_across_phases :
  (main Run.ToCamel Run.in_order Collisions.env Run.w0).1 = Done ()
  ∧ declared <$> file (main Run.ToCamel Run.in_order Collisions.env Run.w0).2
    = Some [("Disconnect", "0x00"); ("Disconnect", "0x19")]
  ∧ names_under LoginClientbound <$> file (main Run.ToCamel Run.in_order Collisions.env Run.w0).2
    = Some ["Disconnect"]
  ∧ names_under PlayClientbound <$> file (main Run.ToCamel Run.in_order Collisions.env Run.w0).2
    = Some ["Disconnect"].
Proof. repeat split; vm_compute; reflexivity. Qed.

(** C2 (the code departs from the claim).  When the status phase fails to
    navigate, [main] stops with status 1 before the file is created, but the
    message it prints is prefixed with "play", not "status". *)
Theorem main_status_error_says_play :
  unnest Broken.doc ["status"; "toClient"; "types"]
  = inr ("key " +:+ GoFmt.dquote +:+ "toClient" +:+ GoFmt.dquote +:+ " not found")
  ∧ main Run.ToCamel Run.in_order Broken.env Run.w0
    = (Exited 1,
       mkWorld 6
         ["Error: play: key " +:+ GoFmt.dquote +:+ "toClient" +:+ GoFmt.dquote
            +:+ " not found" +:+ GoFmt.newline]
         None).
Proof. split; vm_compute; reflexivity. Qed.

(** * Further properties of the generator *)

(** ** [unnest] *)

(** X1.  Walking a key sequence in two legs is walking it in one: [unnest]
    over [ks1 ++ ks2] is [unnest] over [ks1] followed, when that succeeds, by
    [unnest] over [ks2] from the map reached; an error of the first leg is the
    error of the whole walk. *)
Theorem unnest_app (input : gmap string json) (ks1 ks2 : list string) :
  unnest input (ks1 ++ ks2)
  = match unnest input ks1 with
    | inl m => unnest m ks2
    | inr e => inr e
    end.
Proof.
  revert input. induction ks1 as [|k ks1 IH]; intros input; simpl; [done|].
  destruct (input !! k) as [[| | | | |next]|]; auto.
Qed.

(** X2.  When the keys are ASCII text, an error of [unnest] names the first key
    the walk cannot go through: the keys before it lead through nested maps to
    a map in which that key is absent (message "key ... not found", the key
    quoted as [%q] prints it) or bound to a value that is not a string-keyed
    map (message "key ... was <type>, expected a string map"). *)
Theorem unnest_error_names_blocked_key (input : gmap string json) (keys : list string)
    (e : error) :
  Forall (λ k, ascii_only k = true) keys →
  unnest input keys = inr e →
  ∃ pre k post cur,
    keys = pre ++ k :: post ∧ reaches input pre cur ∧ names_key e cur k.
Proof. intros _. apply unnest_inr. Qed.

Lemma unnest_error_names_blocked_key_witness :
  Forall (λ k, ascii_only k = true) ["a"; "b"; "c"]
  ∧ unnest {[ "a" := JObject {[ "b" := JNumber 0 ]} ]} ["a"; "b"; "c"]
    = inr ("key " +:+ GoFmt.dquote +:+ "b" +:+ GoFmt.dquote
             +:+ " was float64, expected a string map")
  ∧ ∃ pre k post cur,
      ["a"; "b"; "c"] = pre ++ k :: post
      ∧ reaches {[ "a" := JObject {[ "b" := JNumber 0 ]} ]} pre cur
      ∧ names_key ("key " +:+ GoFmt.dquote +:+ "b" +:+ GoFmt.dquote
                     +:+ " was float64, expected a string map") cur k.
Proof.
  assert (Forall (λ k, ascii_only k = true) ["a"; "b"; "c"]) as Hascii
    by (repeat constructor).
  split; [exact Hascii|]. split; [vm_compute; reflexivity|].
  apply (unnest_error_names_blocked_key
           {[ "a" := JObject {[ "b" := JNumber 0 ]} ]} ["a"; "b"; "c"] _ Hascii).
  vm_compute. reflexivity.
Defined.

(** ** [EnsureUniqueNames] *)

Lemma resolve_no_shared l m :
  (∀ k, k ∈ l → Serverbound m !! k = None) → foldl disambiguate m l = m.
Proof.
  induction l as [|k l IH]; intros Hl; [done|]. simpl.
  rewrite disambiguate_miss by (apply Hl; left). apply IH.
  intros k' Hk'. apply Hl. by right.
Qed.

Lemma resolve_removes m l k :
  no_suffix_clash m → l ≡ₚ (map_to_list (Clientbound m)).*1 → k ∈ shared m →
  Clientbound (foldl disambiguate m l) !! k = None
  ∧ Serverbound (foldl disambiguate m l) !! k = None.
Proof.
  intros Hclash Hl Hk. pose proof (no_suffix_clash_safe _ _ Hclash Hl) as Hsafe.
  pose proof Hk as [Hc Hs]%elem_of_intersection.
  assert (k ∈ l) as Hkl by (by rewrite Hl, elem_of_fst_map_to_list).
  assert (∀ k', k' ∈ l → is_Some (Serverbound m !! k') → k' ∈ shared m) as Hshared.
  { intros k' Hk' Hs'. apply elem_of_intersection. split; [|by apply elem_of_dom].
    by rewrite Hl, elem_of_fst_map_to_list in Hk'. }
  apply elem_of_dom in Hs. split; apply eq_None_not_Some; intros Hsome.
  - destruct (resolve_client_keys _ _ _ Hsafe Hsome) as [[_ Hn]|(k' & Hk' & Hs' & ->)].
    + by apply Hn.
    + destruct (Hclash k') as [HC _]; [by apply Hshared|]. apply HC. by apply elem_of_dom.
  - destruct (resolve_server_keys _ _ _ Hsafe Hsome) as [[_ Hn]|(k' & Hk' & Hs' & ->)].
    + by apply Hn.
    + destruct (Hclash k') as [_ HS]; [by apply Hshared|]. by apply HS.
Qed.

Lemma resolve_keeps m l x :
  no_suffix_clash m → l ≡ₚ (map_to_list (Clientbound m)).*1 → x ∉ shared m →
  ((∀ k, k ∈ shared m → x ≠ k +:+ "Clientbound") →
     Clientbound (foldl disambiguate m l) !! x = Clientbound m !! x)
  ∧ ((∀ k, k ∈ shared m → x ≠ k +:+ "Serverbound") →
       Serverbound (foldl disambiguate m l) !! x = Serverbound m !! x).
Proof.
  intros Hclash Hl Hx. pose proof (no_suffix_clash_safe _ _ Hclash Hl) as Hsafe.
  assert (∀ k', k' ∈ l → is_Some (Serverbound m !! k') → k' ∈ shared m) as Hshared.
  { intros k' Hk' Hs'. apply elem_of_intersection. split; [|by apply elem_of_dom].
    by rewrite Hl, elem_of_fst_map_to_list in Hk'. }
  assert (x ∈ l → Serverbound m !! x = None) as Hnone.
  { intros Hin. apply eq_None_not_Some. intros Hs. apply Hx. by apply Hshared. }
  split; intros Hne.
  - apply resolve_frame_client; [done|done|]. intros k Hk Hs. apply Hne. by apply Hshared.
  - apply resolve_frame_server; [done|done|]. intros k Hk Hs. apply Hne. by apply Hshared.
Qed.

Lemma resolve_order_independent m l1 l2 :
  no_suffix_clash m →
  l1 ≡ₚ (map_to_list (Clientbound m)).*1 → l2 ≡ₚ (map_to_list (Clientbound m)).*1 →
  foldl disambiguate m l1 = foldl disambiguate m l2.
Proof.
  intros Hclash Hl1 Hl2.
  pose proof (no_suffix_clash_safe _ _ Hclash Hl1) as Hsafe1.
  pose proof (no_suffix_clash_safe _ _ Hclash Hl2) as Hsafe2.
  assert (∀ k, k ∈ l1 ↔ k ∈ l2) as Hsame by (intros k; by rewrite Hl1, Hl2).
  assert (∀ k', k' ∈ l1 → is_Some (Serverbound m !! k') → k' ∈ shared m) as Hshared.
  { intros k' Hk' Hs'. apply elem_of_intersection. split; [|by apply elem_of_dom].
    by rewrite Hl1, elem_of_fst_map_to_list in Hk'. }
  assert (Clientbound (foldl disambiguate m l1) = Clientbound (foldl disambiguate m l2)
          ∧ Serverbound (foldl disambiguate m l1) = Serverbound (foldl disambiguate m l2))
    as [HC HS].
  { split; apply map_eq; intros x.
    - destruct (decide (Exists (λ k, is_Some (Serverbound m !! k) ∧ x = k +:+ "Clientbound") l1))
        as [(k & Hk & Hs & ->)%Exists_exists|Hno].
      + destruct (resolve_hit l1 m k) as [_ ->]; [done..|].
        destruct (resolve_hit l2 m k) as [_ ->]; [done|by apply Hsame|done|done].
      + destruct (decide (x ∈ shared m)) as [Hx|Hx].
        * destruct (resolve_removes m l1 x) as [-> _]; [done..|].
          by destruct (resolve_removes m l2 x) as [-> _].
        * assert (∀ k, k ∈ shared m → x ≠ k +:+ "Clientbound") as Hne.
          { intros k [Hkc Hks]%elem_of_intersection ->. apply Hno, Exists_exists.
            exists k. split; [by rewrite Hl1, elem_of_fst_map_to_list|].
            split; [by apply elem_of_dom|done]. }
          destruct (resolve_keeps m l1 x) as [H1 _]; [done..|].
          destruct (resolve_keeps m l2 x) as [H2 _]; [done..|].
          by rewrite H1, H2.
    - destruct (decide (Exists (λ k, is_Some (Serverbound m !! k) ∧ x = k +:+ "Serverbound") l1))
        as [(k & Hk & Hs & ->)%Exists_exists|Hno].
      + destruct (resolve_hit l1 m k) as [-> _]; [done..|].
        destruct (resolve_hit l2 m k) as [-> _]; [done|by apply Hsame|done|done].
      + destruct (decide (x ∈ shared m)) as [Hx|Hx].
        * destruct (resolve_removes m l1 x) as [_ ->]; [done..|].
          by destruct (resolve_removes m l2 x) as [_ ->].
        * assert (∀ k, k ∈ shared m → x ≠ k +:+ "Serverbound") as Hne.
          { intros k [Hkc Hks]%elem_of_intersection ->. apply Hno, Exists_exists.
            exists k. split; [by rewrite Hl1, elem_of_fst_map_to_list|].
            split; [by apply elem_of_dom|done]. }
          destruct (resolve_keeps m l1 x) as [_ H1]; [done..|].
          destruct (resolve_keeps m l2 x) as [_ H2]; [done..|].
          by rewrite H1, H2. }
  destruct (foldl disambiguate m l1), (foldl disambiguate m l2). simpl in *. by subst.
Qed.

Section Resolver.

Variable shuffle : nat → ∀ A : Type, list A → list A.
Hypothesis shuffle_perm : ∀ n A (l : list A), shuffle n A l ≡ₚ l.

Lemma clientKeys_perm (m : duplexMappings) (r : nat) :
  (shuffle r _ (map_to_list (Clientbound m))).*1 ≡ₚ (map_to_list (Clientbound m)).*1.
Proof. by rewrite shuffle_perm. Qed.

(** X3.  When the two mappings have no name in common, [EnsureUniqueNames]
    returns them unchanged, in whatever order it visits the clientbound
    names. *)
Theorem EnsureUniqueNames_no_shared (m : duplexMappings) (w : World) :
  shared m = ∅ →
  EnsureUniqueNames shuffle m w = (Done m, advance 1 w).
Proof.
  intros Hnone. rewrite EnsureUniqueNames_run. do 2 f_equal.
  apply resolve_no_shared. intros k Hk.
  rewrite clientKeys_perm, elem_of_fst_map_to_list in Hk.
  apply eq_None_not_Some. intros Hs%elem_of_dom.
  apply (not_elem_of_empty (C:=gset string) k). rewrite <- Hnone.
  by apply elem_of_intersection.
Qed.

(** X4.  Under the side condition of C3, a name shared by the two mappings is
    a key of neither mapping after [EnsureUniqueNames]: it only survives in
    its suffixed forms. *)
Theorem EnsureUniqueNames_removes_shared (m : duplexMappings) (w : World) :
  no_suffix_clash m →
  ∃ m', EnsureUniqueNames shuffle m w = (Done m', advance 1 w)
        ∧ ∀ k, k ∈ shared m →
            Clientbound m' !! k = None ∧ Serverbound m' !! k = None.
Proof.
  intros Hclash. eexists. split; [apply EnsureUniqueNames_run|].
  intros k Hk. apply resolve_removes; [done|apply clientKeys_perm|done].
Qed.

(** X5.  Under the side condition of C3, [EnsureUniqueNames] leaves every
    other entry alone: a name that is not shared, and is not the suffixed
    form of a shared name, is bound after the call exactly as before, in the
    clientbound and in the serverbound mapping. *)
Theorem EnsureUniqueNames_keeps_others (m : duplexMappings) (w : World) :
  no_suffix_clash m →
  ∃ m', EnsureUniqueNames shuffle m w = (Done m', advance 1 w)
        ∧ ∀ x, x ∉ shared m →
            ((∀ k, k ∈ shared m → x ≠ k +:+ "Clientbound") →
               Clientbound m' !! x = Clientbound m !! x)
            ∧ ((∀ k, k ∈ shared m → x ≠ k +:+ "Serverbound") →
                 Serverbound m' !! x = Serverbound m !! x).
Proof.
  intros Hclash. eexists. split; [apply EnsureUniqueNames_run|].
  intros x Hx. apply resolve_keeps; [done|apply clientKeys_perm|done].
Qed.

(** X7.  [EnsureUniqueNames] never invents an id: whatever the mappings and
    the iteration order, every id of the resolved clientbound (serverbound)
    mapping is an id of the original clientbound (serverbound) mapping. *)
Theorem EnsureUniqueNames_keeps_ids (m : duplexMappings) (w : World) :
  ∃ m', EnsureUniqueNames shuffle m w = (Done m', advance 1 w)
        ∧ (∀ x v, Clientbound m' !! x = Some v → ∃ x0, Clientbound m !! x0 = Some v)
        ∧ (∀ x v, Serverbound m' !! x = Some v → ∃ x0, Serverbound m !! x0 = Some v).
Proof.
  eexists. split; [apply EnsureUniqueNames_run|].
  apply resolve_values.
  - rewrite clientKeys_perm. apply NoDup_fst_map_to_list.
  - intros k Hk. rewrite clientKeys_perm, elem_of_fst_map_to_list in Hk.
    by apply elem_of_dom.
Qed.

End Resolver.

(** X6.  Under the side condition of C3 the result of [EnsureUniqueNames] does
    not depend on the order in which the clientbound names are visited. *)
Theorem EnsureUniqueNames_order_independent
    (shuffle1 shuffle2 : nat → ∀ A : Type, list A → list A)
    (m : duplexMappings) (w1 w2 : World) :
  (∀ n A (l : list A), shuffle1 n A l ≡ₚ l) →
  (∀ n A (l : list A), shuffle2 n A l ≡ₚ l) →
  no_suffix_clash m →
  (EnsureUniqueNames shuffle1 m w1).1 = (EnsureUniqueNames shuffle2 m w2).1.
Proof.
  intros Hp1 Hp2 Hclash. rewrite !EnsureUniqueNames_run. simpl. f_equal.
  apply resolve_order_independent; [done|by apply clientKeys_perm..].
Qed.

Lemma reversed_perm : ∀ n A (l : list A), Run.reversed n A l ≡ₚ l.
Proof. intros n A l. unfold Run.reversed. symmetry. apply Permutation_rev. Defined.

Lemma EnsureUniqueNames_no_shared_witness :
  (∀ n A (l : list A), Run.in_order n A l ≡ₚ l)
  ∧ shared Inputs.apart = ∅
  ∧ EnsureUniqueNames Run.in_order Inputs.apart Run.w0 = (Done Inputs.apart, advance 1 Run.w0).
Proof.
  split; [intros; reflexivity|]. split; [vm_compute; reflexivity|].
  apply (EnsureUniqueNames_no_shared Run.in_order (λ _ _ l, Permutation_refl l)
           Inputs.apart Run.w0).
  vm_compute. reflexivity.
Defined.

Lemma EnsureUniqueNames_removes_shared_witness :
  (∀ n A (l : list A), Run.in_order n A l ≡ₚ l)
  ∧ no_suffix_clash Inputs.chat
  ∧ ∃ m', EnsureUniqueNames Run.in_order Inputs.chat Run.w0 = (Done m', advance 1 Run.w0)
          ∧ ∀ k, k ∈ shared Inputs.chat →
              Clientbound m' !! k = None ∧ Serverbound m' !! k = None.
Proof.
  split; [intros; reflexivity|]. split; [exact no_suffix_clash_chat|].
  apply (EnsureUniqueNames_removes_shared Run.in_order (λ _ _ l, Permutation_refl l)
           Inputs.chat Run.w0 no_suffix_clash_chat).
Defined.

Lemma EnsureUniqueNames_keeps_others_witness :
  (∀ n A (l : list A), Run.in_order n A l ≡ₚ l)
  ∧ no_suffix_clash Inputs.chat
  ∧ ∃ m', EnsureUniqueNames Run.in_order Inputs.chat Run.w0 = (Done m', advance 1 Run.w0)
          ∧ ∀ x, x ∉ shared Inputs.chat →
              ((∀ k, k ∈ shared Inputs.chat → x ≠ k +:+ "Clientbound") →
                 Clientbound m' !! x = Clientbound Inputs.chat !! x)
              ∧ ((∀ k, k ∈ shared Inputs.chat → x ≠ k +:+ "Serverbound") →
                   Serverbound m' !! x = Serverbound Inputs.chat !! x).
Proof.
  split; [intros; reflexivity|]. split; [exact no_suffix_clash_chat|].
  apply (EnsureUniqueNames_keeps_others Run.in_order (λ _ _ l, Permutation_refl l)
           Inputs.chat Run.w0 no_suffix_clash_chat).
Defined.

Lemma EnsureUniqueNames_keeps_ids_witness :
  (∀ n A (l : list A), Run.reversed n A l ≡ₚ l)
  ∧ ∃ m', EnsureUniqueNames Run.reversed Inputs.clash Run.w0 = (Done m', advance 1 Run.w0)
          ∧ (∀ x v, Clientbound m' !! x = Some v →
                    ∃ x0, Clientbound Inputs.clash !! x0 = Some v)
          ∧ (∀ x v, Serverbound m' !! x = Some v →
                    ∃ x0, Serverbound Inputs.clash !! x0 = Some v).
Proof.
  split; [exact reversed_perm|].
  apply (EnsureUniqueNames_keeps_ids Run.reversed reversed_perm Inputs.clash Run.w0).
Defined.

Lemma EnsureUniqueNames_order_independent_witness :
  (∀ n A (l : list A), Run.in_order n A l ≡ₚ l)
  ∧ (∀ n A (l : list A), Run.reversed n A l ≡ₚ l)
  ∧ no_suffix_clash Inputs.chat
  ∧ (EnsureUniqueNames Run.in_order Inputs.chat Run.w0).1
    = (EnsureUniqueNames Run.reversed Inputs.chat Run.w0).1.
Proof.
  split; [intros; reflexivity|]. split; [exact reversed_perm|].
  split; [exact no_suffix_clash_chat|].
  apply (EnsureUniqueNames_order_independent Run.in_order Run.reversed Inputs.chat
           Run.w0 Run.w0 (λ _ _ l, Permutation_refl l) reversed_perm no_suffix_clash_chat).
Defined.

(** ** [unpackMapping] *)

Lemma recorded_frame ToCamel (es : list (string * json)) out x :
  x ∉ (λ e, ToCamel (text e.2)) <$> es →
  foldl (recorded ToCamel) out es !! x = out !! x.
Proof.
  revert out. induction es as [|e es IH]; intros out Hx; [done|]. simpl.
  rewrite fmap_cons, not_elem_of_cons in Hx. destruct Hx as [Hne Hx].
  rewrite IH by done. unfold recorded. by rewrite lookup_insert_ne.
Qed.

Lemma recorded_lookup ToCamel (es : list (string * json)) out e :
  NoDup ((λ e, ToCamel (text e.2)) <$> es) → e ∈ es →
  foldl (recorded ToCamel) out es !! ToCamel (text e.2) = Some e.1.
Proof.
  revert out. induction es as [|e0 es IH]; intros out Hnd Hin; [by inversion Hin|].
  rewrite fmap_cons in Hnd. apply NoDup_cons in Hnd as [Hfresh Hnd]. simpl.
  apply elem_of_cons in Hin as [->|Hin]; [|by apply IH].
  rewrite recorded_frame by done. unfold recorded. by rewrite lookup_insert_eq.
Qed.

Lemma recorded_size ToCamel (es : list (string * json)) out :
  NoDup ((λ e, ToCamel (text e.2)) <$> es) →
  (∀ e, e ∈ es → out !! ToCamel (text e.2) = None) →
  size (foldl (recorded ToCamel) out es) = (size out + length es)%nat.
Proof.
  revert out. induction es as [|e0 es IH]; intros out Hnd Hout; simpl; [lia|].
  rewrite fmap_cons in Hnd. apply NoDup_cons in Hnd as [Hfresh Hnd].
  rewrite IH; [|done|].
  - unfold recorded. rewrite map_size_insert_None by (apply Hout; left). lia.
  - intros e He. unfold recorded. rewrite lookup_insert_ne.
    + apply Hout. by right.
    + intros Heq. apply Hfresh. rewrite Heq. apply list_elem_of_fmap. by exists e.
Qed.

Lemma recorded_distinct ToCamel (mappings : gmap string json) es :
  es ≡ₚ map_to_list mappings →
  (∀ id1 v1 id2 v2, mappings !! id1 = Some v1 → mappings !! id2 = Some v2 →
     ToCamel (text v1) = ToCamel (text v2) → id1 = id2) →
  (∀ id v, mappings !! id = Some v →
     foldl (recorded ToCamel) ∅ es !! ToCamel (text v) = Some id)
  ∧ size (foldl (recorded ToCamel) ∅ es) = size mappings.
Proof.
  intros Hes Hinj.
  assert (NoDup ((λ e, ToCamel (text e.2)) <$> es)) as Hnd.
  { rewrite Hes. apply NoDup_fmap_2_strong; [|apply NoDup_map_to_list].
    intros [id1 v1] [id2 v2] H1%elem_of_map_to_list H2%elem_of_map_to_list Heq.
    simpl in Heq. assert (id1 = id2) as -> by (by eapply Hinj). congruence. }
  split.
  - intros id v Hv. apply (recorded_lookup ToCamel es ∅ (id, v)); [done|].
    rewrite Hes. by apply elem_of_map_to_list.
  - rewrite recorded_size by done. rewrite map_size_empty, Hes, length_map_to_list. lia.
Qed.

Lemma navigate_found_text data gs dir mappings id v :
  navigate data gs dir = NavFound mappings → mappings !! id = Some v →
  ∃ name, v = JString name.
Proof.
  unfold navigate. destruct (unnest data [gs; dir; "types"]) as [info|]; [|done].
  destruct (leafOf info) as [mp|]; [|done].
  destruct (forallb _ (map_to_list mp)) eqn:Hall; [|done].
  intros [= ->] Hv. rewrite forallb_forall in Hall.
  specialize (Hall (id, v)). rewrite <- list_elem_of_In, elem_of_map_to_list in Hall.
  specialize (Hall Hv). destruct v; try done. by eexists.
Qed.

Section Names.

Variable ToCamel : string → string.
Variable shuffle : nat → ∀ A : Type, list A → list A.
Hypothesis shuffle_perm : ∀ n A (l : list A), shuffle n A l ≡ₚ l.

(** X8.  Whenever [unpackMapping] returns mappings, their names are exactly
    the normalised names the schema declares for that phase, direction by
    direction, whatever the iteration order and even when several raw names
    normalise to one. *)
Theorem unpackMapping_names data gameState w out :
  (unpackMapping ToCamel shuffle data gameState w).1 = Done (inl out) →
  dom (Clientbound out) = normalized ToCamel data gameState "toClient"
  ∧ dom (Serverbound out) = normalized ToCamel data gameState "toServer".
Proof.
  destruct (unpackMapping_run ToCamel shuffle shuffle_perm data gameState w)
    as (n & -> & _).
  simpl. by apply unpacked_dom.
Qed.

(** X9.  When the schema of a phase has the expected shape and, within each
    direction, no two ids declare names with the same normalised form,
    [unpackMapping] loses nothing: looking up the normalised form of a
    declared name gives back its id, and each returned mapping has as many
    entries as the schema's mapping. *)
Theorem unpackMapping_distinct_names data gameState w toClient toServer :
  navigate data gameState "toClient" = NavFound toClient →
  navigate data gameState "toServer" = NavFound toServer →
  distinct_names ToCamel toClient →
  distinct_names ToCamel toServer →
  ∃ out w',
    unpackMapping ToCamel shuffle data gameState w = (Done (inl out), w')
    ∧ (∀ id name, toClient !! id = Some (JString name) →
         Clientbound out !! ToCamel name = Some id)
    ∧ (∀ id name, toServer !! id = Some (JString name) →
         Serverbound out !! ToCamel name = Some id)
    ∧ size (Clientbound out) = size toClient
    ∧ size (Serverbound out) = size toServer.
Proof.
  intros Hc Hs Hdc Hds.
  destruct (unpackMapping_run ToCamel shuffle shuffle_perm data gameState w)
    as (n & Hrun & _).
  unfold unpacked in Hrun. rewrite Hc, Hs in Hrun.
  eexists _, _. split; [exact Hrun|]. simpl.
  assert (∀ dir mp, navigate data gameState dir = NavFound mp → distinct_names ToCamel mp →
            ∀ id1 v1 id2 v2, mp !! id1 = Some v1 → mp !! id2 = Some v2 →
              ToCamel (text v1) = ToCamel (text v2) → id1 = id2) as Hinj.
  { intros dir mp Hnav Hd id1 v1 id2 v2 H1 H2.
    destruct (navigate_found_text _ _ _ _ _ _ Hnav H1) as [n1 ->].
    destruct (navigate_found_text _ _ _ _ _ _ Hnav H2) as [n2 ->].
    simpl. by eapply Hd. }
  destruct (recorded_distinct ToCamel toClient (shuffle (rand w) _ (map_to_list toClient)))
    as [Hlc Hsc]; [apply shuffle_perm|by eapply Hinj|].
  destruct (recorded_distinct ToCamel toServer (shuffle (S (rand w)) _ (map_to_list toServer)))
    as [Hls Hss]; [apply shuffle_perm|by eapply Hinj|].
  split; [intros id name Hv; by apply (Hlc id (JString name))|].
  split; [intros id name Hv; by apply (Hls id (JString name))|]. done.
Qed.

End Names.

Lemma unpackMapping_names_witness :
  (∀ n A (l : list A), Run.in_order n A l ≡ₚ l)
  ∧ (unpackMapping Run.ToCamel Run.in_order Sample.doc "play" Run.w0).1
    = Done (inl Inputs.chat_raw)
  ∧ dom (Clientbound Inputs.chat_raw) = normalized Run.ToCamel Sample.doc "play" "toClient"
  ∧ dom (Serverbound Inputs.chat_raw) = normalized Run.ToCamel Sample.doc "play" "toServer".
Proof.
  split; [intros; reflexivity|]. split; [vm_compute; reflexivity|].
  apply (unpackMapping_names Run.ToCamel Run.in_order (λ _ _ l, Permutation_refl l)
           Sample.doc "play" Run.w0 Inputs.chat_raw).
  vm_compute. reflexivity.
Defined.

Lemma distinct_names_two (id1 id2 n1 n2 : string) :
  Run.ToCamel n1 ≠ Run.ToCamel n2 →
  distinct_names Run.ToCamel (Run.names [(id1, n1); (id2, n2)]).
Proof.
  intros Hne i1 m1 i2 m2. unfold Run.names. simpl.
  rewrite !lookup_insert_Some, !lookup_empty. intros H1 H2 Heq.
  destruct H1 as [[<- [= <-]]|[_ [[<- [= <-]]|[_ ?]]]]; [| |done];
    destruct H2 as [[<- [= <-]]|[_ [[<- [= <-]]|[_ ?]]]]; done.
Defined.

Lemma unpackMapping_distinct_names_witness :
  (∀ n A (l : list A), Run.in_order n A l ≡ₚ l)
  ∧ navigate Sample.doc "play" "toClient"
    = NavFound (Run.names [("0x05", "spawn_entity"); ("0x06", "chat")])
  ∧ navigate Sample.doc "play" "toServer"
    = NavFound (Run.names [("0x03", "chat"); ("0x07", "use_item")])
  ∧ distinct_names Run.ToCamel (Run.names [("0x05", "spawn_entity"); ("0x06", "chat")])
  ∧ distinct_names Run.ToCamel (Run.names [("0x03", "chat"); ("0x07", "use_item")])
  ∧ ∃ out w',
      unpackMapping Run.ToCamel Run.in_order Sample.doc "play" Run.w0 = (Done (inl out), w')
      ∧ (∀ id name,
           Run.names [("0x05", "spawn_entity"); ("0x06", "chat")] !! id = Some (JString name) →
           Clientbound out !! Run.ToCamel name = Some id)
      ∧ (∀ id name,
           Run.names [("0x03", "chat"); ("0x07", "use_item")] !! id = Some (JString name) →
           Serverbound out !! Run.ToCamel name = Some id)
      ∧ size (Clientbound out) = size (Run.names [("0x05", "spawn_entity"); ("0x06", "chat")])
      ∧ size (Serverbound out) = size (Run.names [("0x03", "chat"); ("0x07", "use_item")]).
Proof.
  assert (distinct_names Run.ToCamel (Run.names [("0x05", "spawn_entity"); ("0x06", "chat")]))
    as Hdc by (apply distinct_names_two; vm_compute; discriminate).
  assert (distinct_names Run.ToCamel (Run.names [("0x03", "chat"); ("0x07", "use_item")]))
    as Hds by (apply distinct_names_two; vm_compute; discriminate).
  split; [intros; reflexivity|]. split; [vm_compute; reflexivity|].
  split; [vm_compute; reflexivity|]. split; [exact Hdc|]. split; [exact Hds|].
  apply (unpackMapping_distinct_names Run.ToCamel Run.in_order (λ _ _ l, Permutation_refl l)
           Sample.doc "play" Run.w0 _ _); [vm_compute; reflexivity..|exact Hdc|exact Hds].
Defined.

(** ** [downloadInfo] *)

Lemma unpack_outcome_found data gs :
  unpack_outcome data gs = PhaseFound
  ↔ (∃ c, navigate data gs "toClient" = NavFound c)
    ∧ (∃ s, navigate data gs "toServer" = NavFound s).
Proof.
  unfold unpack_outcome.
  destruct (navigate data gs "toClient"), (navigate data gs "toServer");
    split; try done; try (intros [[? ?] [? ?]]; done); eauto.
Qed.

Lemma unpacked_outcome ToCamel shuffle data gs r :
  match unpack_outcome data gs with
  | PhaseError e => unpacked ToCamel shuffle data gs r = Done (inr e)
  | PhasePanic => unpacked ToCamel shuffle data gs r = Panicked
  | PhaseFound => ∃ out, unpacked ToCamel shuffle data gs r = Done (inl out)
  end.
Proof.
  unfold unpack_outcome, unpacked.
  destruct (navigate data gs "toClient"); [done..|].
  destruct (navigate data gs "toServer"); [done..|]. by eexists.
Qed.

Section Outcomes.

Variable ToCamel : string → string.
Variable shuffle : nat → ∀ A : Type, list A → list A.
Hypothesis shuffle_perm : ∀ n A (l : list A), shuffle n A l ≡ₚ l.

Lemma downloadInfo_cases env w data :
  fetched env = Decoded data →
  match unpack_outcome data "login" with
  | PhaseError e => (downloadInfo ToCamel shuffle env w).1 = Done (inr ("login: " +:+ e))
  | PhasePanic => (downloadInfo ToCamel shuffle env w).1 = Panicked
  | PhaseFound =>
      match unpack_outcome data "play" with
      | PhaseError e => (downloadInfo ToCamel shuffle env w).1 = Done (inr ("play: " +:+ e))
      | PhasePanic => (downloadInfo ToCamel shuffle env w).1 = Panicked
      | PhaseFound =>
          match unpack_outcome data "status" with
          | PhaseError e =>
              (downloadInfo ToCamel shuffle env w).1 = Done (inr ("play: " +:+ e))
          | PhasePanic => (downloadInfo ToCamel shuffle env w).1 = Panicked
          | PhaseFound => ∃ p, (downloadInfo ToCamel shuffle env w).1 = Done (inl p)
          end
      end
  end.
Proof.
  intros Hf. remember ((downloadInfo ToCamel shuffle env w).1) as o eqn:Ho.
  unfold downloadInfo in Ho. rewrite Hf in Ho. unfold bind at 1 in Ho.
  destruct (unpackMapping_run ToCamel shuffle shuffle_perm data "login" w)
    as (n1 & Hrun & _).
  rewrite Hrun in Ho. clear Hrun.
  pose proof (unpacked_outcome ToCamel shuffle data "login" (rand w)) as Hl.
  destruct (unpack_outcome data "login"); [by rewrite Hl in Ho..|].
  destruct Hl as [rl Hl]. rewrite Hl in Ho.
  unfold bind at 1 in Ho. rewrite EnsureUniqueNames_run in Ho. unfold bind at 1 in Ho.
  match type of Ho with context [unpackMapping _ _ data "play" ?w'] =>
    destruct (unpackMapping_run ToCamel shuffle shuffle_perm data "play" w')
      as (n2 & Hrun & _);
    pose proof (unpacked_outcome ToCamel shuffle data "play" (rand w')) as Hp
  end.
  rewrite Hrun in Ho. clear Hrun.
  destruct (unpack_outcome data "play"); [by rewrite Hp in Ho..|].
  destruct Hp as [rp Hp]. rewrite Hp in Ho.
  unfold bind at 1 in Ho. rewrite EnsureUniqueNames_run in Ho. unfold bind at 1 in Ho.
  match type of Ho with context [unpackMapping _ _ data "status" ?w'] =>
    destruct (unpackMapping_run ToCamel shuffle shuffle_perm data "status" w')
      as (n3 & Hrun & _);
    pose proof (unpacked_outcome ToCamel shuffle data "status" (rand w')) as Hs
  end.
  rewrite Hrun in Ho. clear Hrun.
  destruct (unpack_outcome data "status"); [by rewrite Hs in Ho..|].
  destruct Hs as [rs Hs]. rewrite Hs in Ho.
  unfold bind at 1 in Ho. rewrite EnsureUniqueNames_run in Ho. simpl in Ho. by eexists.
Qed.

Lemma downloadInfo_not_decoded env w err :
  fetched env = GetFailed err ∨ fetched env = DecodeFailed err →
  downloadInfo ToCamel shuffle env w = (Done (inr err), w).
Proof. unfold downloadInfo. by intros [-> | ->]. Qed.

(** X10.  [downloadInfo] returns the packet ids exactly when the document was
    fetched and decoded and, for each of login, play and status, the
    navigation of both directions arrives at mappings whose names are all
    text; the iteration order plays no part. *)
Theorem downloadInfo_succeeds_iff env w :
  (∃ p, (downloadInfo ToCamel shuffle env w).1 = Done (inl p))
  ↔ ∃ data, fetched env = Decoded data
      ∧ ∀ ph, (∃ c, navigate data (gameState ph) "toClient" = NavFound c)
              ∧ (∃ s, navigate data (gameState ph) "toServer" = NavFound s).
Proof.
  destruct (fetched env) as [e|e|data] eqn:Hf.
  - rewrite (downloadInfo_not_decoded env w e) by auto.
    split; [by intros [? ?]|by intros (? & ? & _)].
  - rewrite (downloadInfo_not_decoded env w e) by auto.
    split; [by intros [? ?]|by intros (? & ? & _)].
  - pose proof (downloadInfo_cases env w data Hf) as Hcases.
    pose proof (unpack_outcome_found data "login") as Hl.
    pose proof (unpack_outcome_found data "play") as Hp.
    pose proof (unpack_outcome_found data "status") as Hs.
    split.
    + intros [p Hok]. exists data. split; [done|].
      destruct (unpack_outcome data "login"); [congruence..|].
      destruct (unpack_outcome data "play"); [congruence..|].
      destruct (unpack_outcome data "status"); [congruence..|].
      intros []; [by apply Hl|by apply Hp|by apply Hs].
    + intros (data' & [= <-] & Hall).
      rewrite (proj2 Hl (Hall LoginPhase)), (proj2 Hp (Hall PlayPhase)),
        (proj2 Hs (Hall StatusPhase)) in Hcases. done.
Qed.

(** X11.  [downloadInfo] returns an error in these cases only: the download or
    the decoding failed, and the error is passed on as it is; or the first
    phase, in the order login, play, status, whose navigation does not arrive
    stops with an error of [unnest], which is passed on behind the prefix
    "login: " for login and "play: " for play and for status. *)
Theorem downloadInfo_error_iff env w err :
  (downloadInfo ToCamel shuffle env w).1 = Done (inr err)
  ↔ fetched env = GetFailed err
    ∨ fetched env = DecodeFailed err
    ∨ ∃ data e, fetched env = Decoded data
        ∧ ((unpack_outcome data "login" = PhaseError e ∧ err = "login: " +:+ e)
           ∨ (unpack_outcome data "login" = PhaseFound
              ∧ unpack_outcome data "play" = PhaseError e ∧ err = "play: " +:+ e)
           ∨ (unpack_outcome data "login" = PhaseFound
              ∧ unpack_outcome data "play" = PhaseFound
              ∧ unpack_outcome data "status" = PhaseError e ∧ err = "play: " +:+ e)).
Proof.
  destruct (fetched env) as [e|e|data] eqn:Hf.
  - rewrite (downloadInfo_not_decoded env w e) by auto. simpl. split.
    + intros [= ->]. by left.
    + intros [[= ->]|[?|(? & ? & ? & _)]]; done.
  - rewrite (downloadInfo_not_decoded env w e) by auto. simpl. split.
    + intros [= ->]. right. by left.
    + intros [?|[[= ->]|(? & ? & ? & _)]]; done.
  - pose proof (downloadInfo_cases env w data Hf) as Hcases. split.
    + intros Herr. right. right. exists data.
      destruct (unpack_outcome data "login") as [e| |].
      { exists e. split; [done|]. left. split; [done|]. congruence. }
      { congruence. }
      destruct (unpack_outcome data "play") as [e| |].
      { exists e. split; [done|]. right. left. repeat split; congruence. }
      { congruence. }
      destruct (unpack_outcome data "status") as [e| |].
      { exists e. split; [done|]. right. right. repeat split; congruence. }
      { congruence. }
      destruct Hcases as [p Hp]. congruence.
    + intros [?|[?|(data' & e & [= <-] & Hor)]]; [done..|].
      destruct Hor as [[Hl ->]|[(Hl & Hp & ->)|(Hl & Hp & Hs & ->)]].
      * by rewrite Hl in Hcases.
      * by rewrite Hl, Hp in Hcases.
      * by rewrite Hl, Hp, Hs in Hcases.
Qed.

(** X12.  [downloadInfo] panics exactly when the document was decoded and the
    first phase, in the order login, play, status, whose navigation does not
    arrive stops at a mismatch below "types" (or at a name that is not text):
    a failed download or an error of [unnest] never makes it panic. *)
Theorem downloadInfo_panics_iff env w :
  (downloadInfo ToCamel shuffle env w).1 = Panicked
  ↔ ∃ data, fetched env = Decoded data
      ∧ (unpack_outcome data "login" = PhasePanic
         ∨ (unpack_outcome data "login" = PhaseFound
            ∧ unpack_outcome data "play" = PhasePanic)
         ∨ (unpack_outcome data "login" = PhaseFound
            ∧ unpack_outcome data "play" = PhaseFound
            ∧ unpack_outcome data "status" = PhasePanic)).
Proof.
  destruct (fetched env) as [e|e|data] eqn:Hf.
  - rewrite (downloadInfo_not_decoded env w e) by auto.
    split; [done|by intros (? & ? & _)].
  - rewrite (downloadInfo_not_decoded env w e) by auto.
    split; [done|by intros (? & ? & _)].
  - pose proof (downloadInfo_cases env w data Hf) as Hcases. split.
    + intros Hpanic. exists data. split; [done|].
      destruct (unpack_outcome data "login"); [congruence|by left|].
      destruct (unpack_outcome data "play"); [congruence|right; by left|].
      destruct (unpack_outcome data "status"); [congruence|right; by right|].
      destruct Hcases as [p Hp]. congruence.
    + intros (data' & [= <-] & Hor).
      destruct Hor as [Hl|[(Hl & Hp)|(Hl & Hp & Hs)]].
      * by rewrite Hl in Hcases.
      * by rewrite Hl, Hp in Hcases.
      * by rewrite Hl, Hp, Hs in Hcases.
Qed.

(** X13.  However it ends, [downloadInfo] prints nothing on the standard error
    stream and does not create or write the output file. *)
Theorem downloadInfo_silent env w :
  stderr (downloadInfo ToCamel shuffle env w).2 = stderr w
  ∧ file (downloadInfo ToCamel shuffle env w).2 = file w.
Proof.
  destruct (downloadInfo_world ToCamel shuffle shuffle_perm env w) as [n ->]. done.
Qed.

End Outcomes.

Lemma downloadInfo_succeeds_iff_witness :
  (∀ n A (l : list A), Run.in_order n A l ≡ₚ l)
  ∧ ((∃ p, (downloadInfo Run.ToCamel Run.in_order Sample.env Run.w0).1 = Done (inl p))
     ↔ ∃ data, fetched Sample.env = Decoded data
         ∧ ∀ ph, (∃ c, navigate data (gameState ph) "toClient" = NavFound c)
                 ∧ (∃ s, navigate data (gameState ph) "toServer" = NavFound s)).
Proof.
  split; [intros; reflexivity|].
  apply (downloadInfo_succeeds_iff Run.ToCamel Run.in_order (λ _ _ l, Permutation_refl l)
           Sample.env Run.w0).
Defined.

Lemma downloadInfo_error_iff_witness :
  (∀ n A (l : list A), Run.in_order n A l ≡ₚ l)
  ∧ (downloadInfo Run.ToCamel Run.in_order Broken.env Run.w0).1
    = Done (inr ("play: key " +:+ GoFmt.dquote +:+ "toClient" +:+ GoFmt.dquote
                   +:+ " not found"))
  ∧ ∃ data e, fetched Broken.env = Decoded data
      ∧ unpack_outcome data "login" = PhaseFound
      ∧ unpack_outcome data "play" = PhaseFound
      ∧ unpack_outcome data "status" = PhaseError e.
Proof.
  split; [intros; reflexivity|].
  assert ((downloadInfo Run.ToCamel Run.in_order Broken.env Run.w0).1
          = Done (inr ("play: key " +:+ GoFmt.dquote +:+ "toClient" +:+ GoFmt.dquote
                         +:+ " not found"))) as Herr by (vm_compute; reflexivity).
  split; [exact Herr|].
  destruct (proj1 (downloadInfo_error_iff Run.ToCamel Run.in_order
                     (λ _ _ l, Permutation_refl l) Broken.env Run.w0 _) Herr)
    as [Hf|[Hf|(data & e & Hf & Hor)]]; [discriminate Hf..|].
  exists data. injection Hf as <-.
  exists ("key " +:+ GoFmt.dquote +:+ "toClient" +:+ GoFmt.dquote +:+ " not found").
  split; [reflexivity|]. repeat split; vm_compute; reflexivity.
Defined.

Lemma downloadInfo_panics_iff_witness :
  (∀ n A (l : list A), Run.in_order n A l ≡ₚ l)
  ∧ ((downloadInfo Run.ToCamel Run.in_order (mkEnv (Decoded Documents.no_packet) None) Run.w0).1
     = Panicked
     ↔ ∃ data, fetched (mkEnv (Decoded Documents.no_packet) None) = Decoded data
         ∧ (unpack_outcome data "login" = PhasePanic
            ∨ (unpack_outcome data "login" = PhaseFound
               ∧ unpack_outcome data "play" = PhasePanic)
            ∨ (unpack_outcome data "login" = PhaseFound
               ∧ unpack_outcome data "play" = PhaseFound
               ∧ unpack_outcome data "status" = PhasePanic))).
Proof.
  split; [intros; reflexivity|].
  apply (downloadInfo_panics_iff Run.ToCamel Run.in_order (λ _ _ l, Permutation_refl l)
           (mkEnv (Decoded Documents.no_packet) None) Run.w0).
Defined.

Lemma downloadInfo_silent_witness :
  (∀ n A (l : list A), Run.in_order n A l ≡ₚ l)
  ∧ stderr (downloadInfo Run.ToCamel Run.in_order Broken.env Run.w0).2 = stderr Run.w0
  ∧ file (downloadInfo Run.ToCamel Run.in_order Broken.env Run.w0).2 = file Run.w0.
Proof.
  split; [intros; reflexivity|].
  apply (downloadInfo_silent Run.ToCamel Run.in_order (λ _ _ l, Permutation_refl l)
           Broken.env Run.w0).
Defined.

(** ** [MaxLen] and [main] *)

Lemma longest_unique n n' p : longest n p → longest n' p → n = n'.
Proof.
  intros [Hb [(g & k & Hk & Hn)|[He Hn]]] [Hb' [(g' & k' & Hk' & Hn')|[He' Hn']]].
  - specialize (Hb g' k' Hk'). specialize (Hb' g k Hk). lia.
  - rewrite He' in Hk. set_solver.
  - rewrite He in Hk'. set_solver.
  - lia.
Qed.

(** X14.  The width [MaxLen] computes does not depend on the order in which the
    six maps are iterated. *)
Theorem MaxLen_order_independent
    (shuffle1 shuffle2 : nat → ∀ A : Type, list A → list A)
    (p : protocolIDs) (w1 w2 : World) :
  (∀ n A (l : list A), shuffle1 n A l ≡ₚ l) →
  (∀ n A (l : list A), shuffle2 n A l ≡ₚ l) →
  (MaxLen shuffle1 p w1).1 = (MaxLen shuffle2 p w2).1.
Proof.
  intros Hp1 Hp2. rewrite !MaxLen_run. simpl. f_equal.
  apply (longest_unique _ _ p); by apply MaxLen_longest.
Qed.

Lemma MaxLen_order_independent_witness :
  (∀ n A (l : list A), Run.in_order n A l ≡ₚ l)
  ∧ (∀ n A (l : list A), Run.reversed n A l ≡ₚ l)
  ∧ (MaxLen Run.in_order Sample.ids Run.w0).1 = (MaxLen Run.reversed Sample.ids Run.w0).1.
Proof.
  split; [intros; reflexivity|]. split; [exact reversed_perm|].
  apply (MaxLen_order_independent Run.in_order Run.reversed Sample.ids Run.w0 Run.w0
           (λ _ _ l, Permutation_refl l) reversed_perm).
Defined.

Section Exits.

Variable ToCamel : string → string.
Variable shuffle : nat → ∀ A : Type, list A → list A.
Hypothesis shuffle_perm : ∀ n A (l : list A), shuffle n A l ≡ₚ l.

Lemma main_create_fail_run env w p w1 err :
  downloadInfo ToCamel shuffle env w = (Done (inl p), w1) →
  create_err env = Some err →
  main ToCamel shuffle env w
  = (Exited 1, mkWorld (6 + rand w1) (stderr w1 ++ ["Error: " +:+ err +:+ GoFmt.newline])
                 (file w1)).
Proof.
  intros Hd Hc. unfold main. unfold bind at 1. rewrite Hd. cbv beta iota.
  unfold bind at 1. rewrite MaxLen_run. cbv beta iota. by rewrite Hc.
Qed.

(** X15.  When [downloadInfo] returns an error, [main] prints exactly one line,
    "Error: " followed by the error's message, on the standard error stream,
    exits with status 1, and leaves the output file as it was: it is neither
    created nor written. *)
Theorem main_reports_download_error env w err w1 :
  downloadInfo ToCamel shuffle env w = (Done (inr err), w1) →
  ∃ w', main ToCamel shuffle env w = (Exited 1, w')
        ∧ stderr w' = stderr w ++ ["Error: " +:+ err +:+ GoFmt.newline]
        ∧ file w' = file w.
Proof.
  intros Hd. eexists. split; [by apply main_aborts|]. done.
Qed.

(** X16.  When the ids were downloaded but [os.Create] fails, [main] prints
    "Error: " followed by the message of that failure, exits with status 1
    and writes nothing to the file: the file is only written after a
    successful [os.Create]. *)
Theorem main_create_failure env w p w1 err :
  downloadInfo ToCamel shuffle env w = (Done (inl p), w1) →
  create_err env = Some err →
  ∃ w', main ToCamel shuffle env w = (Exited 1, w')
        ∧ stderr w' = stderr w ++ ["Error: " +:+ err +:+ GoFmt.newline]
        ∧ file w' = file w.
Proof.
  intros Hd Hc. eexists. split; [exact (main_create_fail_run env w p w1 err Hd Hc)|].
  destruct (downloadInfo_world ToCamel shuffle shuffle_perm env w) as [n Hw].
  rewrite Hd in Hw. simpl in Hw. by subst w1.
Qed.

(** X17.  How [main] ends is decided by [downloadInfo] and [os.Create] alone:
    it ends normally when the ids were downloaded and the file was created,
    exits with status 1 when [downloadInfo] returns an error or [os.Create]
    fails, and panics only when [downloadInfo] panics.  In particular the
    writer never panics: [strings.Repeat] is never given a negative count. *)
Theorem main_outcome env w :
  (main ToCamel shuffle env w).1
  = match (downloadInfo ToCamel shuffle env w).1 with
    | Done (inl _) =>
        match create_err env with
        | None => Done ()
        | Some _ => Exited 1
        end
    | Done (inr _) => Exited 1
    | Panicked => Panicked
    | Exited code => Exited code
    end.
Proof.
  destruct (downloadInfo ToCamel shuffle env w) as [o w1] eqn:Hd.
  destruct o as [[p|err]| |code]; simpl.
  - destruct (create_err env) as [err|] eqn:Hc.
    + by rewrite (main_create_fail_run env w p w1 err).
    + by rewrite (main_run ToCamel shuffle shuffle_perm env w p w1).
  - by rewrite (main_aborts ToCamel shuffle shuffle_perm env w err w1).
  - unfold main. unfold bind at 1. by rewrite Hd.
  - unfold main. unfold bind at 1. by rewrite Hd.
Qed.

End Exits.

Lemma main_reports_download_error_witness :
  (∀ n A (l : list A), Run.in_order n A l ≡ₚ l)
  ∧ downloadInfo Run.ToCamel Run.in_order (mkEnv (GetFailed "dial tcp: no route to host") None)
      Run.w0
    = (Done (inr "dial tcp: no route to host"), Run.w0)
  ∧ ∃ w', main Run.ToCamel Run.in_order (mkEnv (GetFailed "dial tcp: no route to host") None)
            Run.w0 = (Exited 1, w')
          ∧ stderr w' = stderr Run.w0
                        ++ ["Error: " +:+ "dial tcp: no route to host" +:+ GoFmt.newline]
          ∧ file w' = file Run.w0.
Proof.
  split; [intros; reflexivity|]. split; [reflexivity|].
  apply (main_reports_download_error Run.ToCamel Run.in_order (λ _ _ l, Permutation_refl l)
           (mkEnv (GetFailed "dial tcp: no route to host") None) Run.w0
           "dial tcp: no route to host" Run.w0).
  reflexivity.
Defined.

Lemma main_create_failure_witness :
  (∀ n A (l : list A), Run.in_order n A l ≡ₚ l)
  ∧ downloadInfo Run.ToCamel Run.in_order
      (mkEnv (Decoded Sample.doc) (Some "open packetIDs.go: permission denied")) Run.w0
    = (Done (inl Sample.ids), Sample.downloaded)
  ∧ create_err (mkEnv (Decoded Sample.doc) (Some "open packetIDs.go: permission denied"))
    = Some "open packetIDs.go: permission denied"
  ∧ ∃ w', main Run.ToCamel Run.in_order
            (mkEnv (Decoded Sample.doc) (Some "open packetIDs.go: permission denied")) Run.w0
          = (Exited 1, w')
          ∧ stderr w' = stderr Run.w0
                        ++ ["Error: " +:+ "open packetIDs.go: permission denied"
                              +:+ GoFmt.newline]
          ∧ file w' = file Run.w0.
Proof.
  split; [intros; reflexivity|]. split; [vm_compute; reflexivity|]. split; [reflexivity|].
  apply (main_create_failure Run.ToCamel Run.in_order (λ _ _ l, Permutation_refl l)
           (mkEnv (Decoded Sample.doc) (Some "open packetIDs.go: permission denied")) Run.w0
           Sample.ids Sample.downloaded "open packetIDs.go: permission denied");
    [vm_compute; reflexivity|reflexivity].
Defined.

Lemma main_outcome_witness :
  (∀ n A (l : list A), Run.in_order n A l ≡ₚ l)
  ∧ (main Run.ToCamel Run.in_order (mkEnv (Decoded Documents.no_packet) None) Run.w0).1
    = Panicked.
Proof.
  split; [intros; reflexivity|].
  exact (main_outcome Run.ToCamel Run.in_order (λ _ _ l, Permutation_refl l)
           (mkEnv (Decoded Documents.no_packet) None) Run.w0).
Defined.
